(** * ecspresso: configuration loading ([config.go])

    A shallow embedding of the configuration-resolution code of ecspresso:
    the scoped environment overlay ([withExtraEnvSet]), the loader
    ([Load]), the normaliser ([Restrict]), the plugin pipeline
    ([setupPlugins]), the version gate ([ValidateVersion]) and the tag
    filter ([ConfigIgnore.filterTags] / [Apply]).

    Go strings are byte strings and are modelled by [string]; a Go [map] is a
    [gmap]; a nilable pointer, slice or map whose nil-ness the code tests is
    an [option]; the process environment, the log and the calls made to
    collaborators are threaded through a state monad. *)

From Stdlib Require Import ZArith String Ascii List.
From stdpp Require Import base option gmap strings list fin_maps.

(** ** Strings *)

(** [sub] starts [s]. *)
Fixpoint has_prefix (sub s : string) : bool :=
  match sub, s with
  | EmptyString, _ => true
  | String a sub', String b s' => bool_decide (a = b) && has_prefix sub' s'
  | String _ _, EmptyString => false
  end.

(** [contains s sub]: [sub] occurs in [s], as [strings.Contains] decides it
    (what a message "names"). *)
Fixpoint contains (s sub : string) : bool :=
  has_prefix sub s ||
  match s with
  | EmptyString => false
  | String _ s' => contains s' sub
  end.

(** The pieces of [s] between occurrences of the character [sep]. *)
Fixpoint split_on (sep : ascii) (s : string) : list string :=
  match s with
  | EmptyString => [""]
  | String c rest =>
      match split_on sep rest with
      | e :: es => if bool_decide (c = sep) then "" :: e :: es else String c e :: es
      | [] => [String c ""]
      end
  end.

Fixpoint join_with (sep : string) (elems : list string) : string :=
  match elems with
  | [] => ""
  | [e] => e
  | e :: rest => e +:+ sep +:+ join_with sep rest
  end.

(** ** [path/filepath] on Unix

    The standard library's lexical path functions, as far as [config.go]
    calls them.  [Clean] is given on path elements, following the rules its
    documentation lists. *)
Module filepath.

Definition Separator : ascii := "/"%char.

Definition IsPathSeparator (c : ascii) : bool := bool_decide (c = Separator).

(** [Ext]: scan from the end down to the last separator; the extension is
    the suffix starting at the last dot met on the way. *)
Fixpoint ext_scan (rev_path : list ascii) (suffix : string) : string :=
  match rev_path with
  | [] => ""
  | c :: before =>
      if IsPathSeparator c then ""
      else if bool_decide (c = "."%char) then String c suffix
      else ext_scan before (String c suffix)
  end.

Definition Ext (path : string) : string :=
  ext_scan (rev (list_ascii_of_string path)) "".

(** [IsAbs]: on Unix, the path starts with a separator. *)
Definition IsAbs (path : string) : bool :=
  match path with
  | String c _ => IsPathSeparator c
  | EmptyString => false
  end.

(** The elements between separators. *)
Definition elements (path : string) : list string := split_on Separator path.

(** One element read by [Clean]; [out] holds the elements written so far,
    last one first.  An empty or [.] element is dropped; [..] removes the
    element before it when there is one that is not itself [..], is dropped
    at the root, and is kept otherwise. *)
Definition clean_step (rooted : bool) (out : list string) (e : string) : list string :=
  if bool_decide (e = "") then out
  else if bool_decide (e = ".") then out
  else if bool_decide (e = "..") then
    match out with
    | top :: below =>
        if bool_decide (top = "..") then e :: out else below
    | [] => if rooted then out else [e]
    end
  else e :: out.

Definition Clean (path : string) : string :=
  if bool_decide (path = "") then "."
  else
    let rooted := IsAbs path in
    let out := rev (fold_left (clean_step rooted) (elements path) []) in
    if rooted then String Separator (join_with "/" out)
    else if bool_decide (out = []) then "."
    else join_with "/" out.

(** [Join] of two elements: empty leading elements are skipped, the rest is
    joined by the separator and cleaned. *)
Definition Join (a b : string) : string :=
  if bool_decide (a ≠ "") then Clean (a +:+ "/" +:+ b)
  else if bool_decide (b ≠ "") then Clean b
  else "".

(** The part of [path] up to and including its last separator. *)
Fixpoint upto_last_separator (path : string) : string :=
  match path with
  | EmptyString => ""
  | String c rest =>
      let p := upto_last_separator rest in
      if bool_decide (p ≠ "") || IsPathSeparator c then String c p else ""
  end.

Definition Dir (path : string) : string := Clean (upto_last_separator path).

End filepath.

(** ** Errors, bytes, durations *)

(** A Go [error] is modelled by its message; [nil] is [None] of
    [option error].  [%w] wrapping prefixes the cause with the context. *)
Definition error : Type := string.
Definition bytes : Type := string.

Definition Errorf_w (context_msg : string) (err : error) : error :=
  context_msg +:+ ": " +:+ err.

(** [time.Duration] counts nanoseconds. *)
Definition time_Minute : Z := 60000000000.

Record Duration : Type := mkDuration { time_Duration : Z }.

Definition DefaultClusterName : string := "default".
Definition DefaultTimeout : Z := 10 * time_Minute.

(** Modelled from the spec: the extension constants [ymlExt], [yamlExt],
    [jsonExt] and [jsonnetExt] are declared outside [config.go]; the spec
    lists the four extensions. *)
Definition ymlExt : string := ".yml".
Definition yamlExt : string := ".yaml".
Definition jsonExt : string := ".json".
Definition jsonnetExt : string := ".jsonnet".

(** ** The types of the collaborators

    Types that belong to libraries ([go-version], [aws-sdk-go-v2],
    [go-jsonnet], [go-config], [text/template]) or to the world outside the
    process; the code only passes their values around. *)
Class ExternalTypes : Type := {
  Outside : Type;            (* files, network, anything but the environment *)
  context_Context : Type;    (* context.Context *)
  FuncMap : Type;            (* template.FuncMap *)
  NativeFunction : Type;     (* jsonnet.NativeFunction *)
  goConfig_Loader : Type;    (* goConfig.Loader *)
  jsonnet_VM : Type;         (* jsonnet.VM *)
  Constraints : Type;        (* goVersion.Constraints, non-nil *)
  Version : Type;            (* goVersion.Version *)
  aws_Config : Type;         (* aws.Config *)
  LoadOption : Type;         (* an option function of awsConfig.LoadDefaultConfig *)
  AppSpec : Type;            (* appspec.AppSpec *)
  PluginConfig : Type;       (* a plugin's opaque configuration payload *)
}.

(** ** Tags and the ignore rule *)

(** [types.Tag]: both fields are [*string]. *)
Record Tag : Type := mkTag { Key : option string; Value : option string }.

Definition aws_ToString (p : option string) : string := default "" p.

Record ConfigIgnore : Type := mkConfigIgnore { Tags : list string }.

(** The interface [hasTags]. *)
Class hasTags (T : Type) : Type := {
  GetTags : T → list Tag;
  SetTags : list Tag → T → T;
}.

(** What an implementation of [hasTags] that stores its tags obeys: tags
    that were set are the tags that are read. *)
Definition stores_tags (T : Type) `{hasTags T} : Prop :=
  ∀ (tags : list Tag) (v : T), GetTags (SetTags tags v) = tags.

(** The keys a rule ignores; a nil rule ignores none. *)
Definition ignored_keys (i : option ConfigIgnore) : list string :=
  match i with
  | None => []
  | Some i => Tags i
  end.

(** [lo.Filter]: the elements the predicate accepts, in order; the predicate
    also receives the index. *)
Fixpoint lo_Filter_from {V : Type} (index : nat) (predicate : V → nat → bool)
    (collection : list V) : list V :=
  match collection with
  | [] => []
  | item :: rest =>
      if predicate item index
      then item :: lo_Filter_from (S index) predicate rest
      else lo_Filter_from (S index) predicate rest
  end.

Definition lo_Filter {V : Type} (collection : list V) (predicate : V → nat → bool) : list V :=
  lo_Filter_from 0 predicate collection.

(** [lo.Contains]. *)
Fixpoint lo_Contains (collection : list string) (element : string) : bool :=
  match collection with
  | [] => false
  | item :: rest => if bool_decide (item = element) then true else lo_Contains rest element
  end.

(** [ConfigIgnore.filterTags]; the receiver may be nil. *)
Definition filterTags (i : option ConfigIgnore) (tags : list Tag) : list Tag :=
  match i with
  | None => tags
  | Some i =>
      if bool_decide (length (Tags i) = 0) then tags
      else lo_Filter tags (λ tag _, negb (lo_Contains (Tags i) (aws_ToString (Key tag))))
  end.

(** [ConfigIgnore.Apply]: the entity after the call, and the error, which
    is always nil. *)
Definition Apply {T : Type} `{hasTags T} (i : option ConfigIgnore) (v : T) : T * option error :=
  (SetTags (filterTags i (GetTags v)) v, None).

(** ** The configuration *)

Section Model.
Context `{ET : ExternalTypes}.

(** Modelled from the spec: [ConfigPlugin] is declared outside [config.go];
    the spec gives its shape, a name and an opaque configuration payload.
    The payload is absent in a plugin built from a name alone. *)
Record ConfigPlugin : Type := mkConfigPlugin {
  Name : string;
  PluginPayload : option PluginConfig;
}.

Record ConfigCodeDeploy : Type := mkConfigCodeDeploy {
  ApplicationName : string;
  DeploymentGroupName : string;
}.

Record Config : Type := mkConfig {
  RequiredVersion : string;
  Region : string;
  Cluster : string;
  Service : string;
  ServiceDefinitionPath : string;
  TaskDefinitionPath : string;
  Plugins : list ConfigPlugin;
  ConfigAppSpec : option AppSpec;
  FilterCommand : string;
  Timeout : option Duration;
  CodeDeploy : option ConfigCodeDeploy;
  Ignore : option ConfigIgnore;
  Env : gmap string string;
  path : string;
  templateFuncs : list FuncMap;
  jsonnetNativeFuncs : list NativeFunction;
  dir : string;
  versionConstraints : option Constraints;
  awsv2Config : aws_Config;
}.

(** Field assignments. *)
Definition set_Region (v : string) (c : Config) : Config :=
  mkConfig (RequiredVersion c) v (Cluster c) (Service c) (ServiceDefinitionPath c)
    (TaskDefinitionPath c) (Plugins c) (ConfigAppSpec c) (FilterCommand c) (Timeout c)
    (CodeDeploy c) (Ignore c) (Env c) (path c) (templateFuncs c) (jsonnetNativeFuncs c)
    (dir c) (versionConstraints c) (awsv2Config c).

Definition set_Cluster (v : string) (c : Config) : Config :=
  mkConfig (RequiredVersion c) (Region c) v (Service c) (ServiceDefinitionPath c)
    (TaskDefinitionPath c) (Plugins c) (ConfigAppSpec c) (FilterCommand c) (Timeout c)
    (CodeDeploy c) (Ignore c) (Env c) (path c) (templateFuncs c) (jsonnetNativeFuncs c)
    (dir c) (versionConstraints c) (awsv2Config c).

Definition set_ServiceDefinitionPath (v : string) (c : Config) : Config :=
  mkConfig (RequiredVersion c) (Region c) (Cluster c) (Service c) v
    (TaskDefinitionPath c) (Plugins c) (ConfigAppSpec c) (FilterCommand c) (Timeout c)
    (CodeDeploy c) (Ignore c) (Env c) (path c) (templateFuncs c) (jsonnetNativeFuncs c)
    (dir c) (versionConstraints c) (awsv2Config c).

Definition set_TaskDefinitionPath (v : string) (c : Config) : Config :=
  mkConfig (RequiredVersion c) (Region c) (Cluster c) (Service c) (ServiceDefinitionPath c)
    v (Plugins c) (ConfigAppSpec c) (FilterCommand c) (Timeout c)
    (CodeDeploy c) (Ignore c) (Env c) (path c) (templateFuncs c) (jsonnetNativeFuncs c)
    (dir c) (versionConstraints c) (awsv2Config c).

Definition set_Timeout (v : option Duration) (c : Config) : Config :=
  mkConfig (RequiredVersion c) (Region c) (Cluster c) (Service c) (ServiceDefinitionPath c)
    (TaskDefinitionPath c) (Plugins c) (ConfigAppSpec c) (FilterCommand c) v
    (CodeDeploy c) (Ignore c) (Env c) (path c) (templateFuncs c) (jsonnetNativeFuncs c)
    (dir c) (versionConstraints c) (awsv2Config c).

Definition set_dir (v : string) (c : Config) : Config :=
  mkConfig (RequiredVersion c) (Region c) (Cluster c) (Service c) (ServiceDefinitionPath c)
    (TaskDefinitionPath c) (Plugins c) (ConfigAppSpec c) (FilterCommand c) (Timeout c)
    (CodeDeploy c) (Ignore c) (Env c) (path c) (templateFuncs c) (jsonnetNativeFuncs c)
    v (versionConstraints c) (awsv2Config c).

Definition set_versionConstraints (v : option Constraints) (c : Config) : Config :=
  mkConfig (RequiredVersion c) (Region c) (Cluster c) (Service c) (ServiceDefinitionPath c)
    (TaskDefinitionPath c) (Plugins c) (ConfigAppSpec c) (FilterCommand c) (Timeout c)
    (CodeDeploy c) (Ignore c) (Env c) (path c) (templateFuncs c) (jsonnetNativeFuncs c)
    (dir c) v (awsv2Config c).

Definition set_awsv2Config (v : aws_Config) (c : Config) : Config :=
  mkConfig (RequiredVersion c) (Region c) (Cluster c) (Service c) (ServiceDefinitionPath c)
    (TaskDefinitionPath c) (Plugins c) (ConfigAppSpec c) (FilterCommand c) (Timeout c)
    (CodeDeploy c) (Ignore c) (Env c) (path c) (templateFuncs c) (jsonnetNativeFuncs c)
    (dir c) (versionConstraints c) v.

Definition set_templateFuncs (v : list FuncMap) (c : Config) : Config :=
  mkConfig (RequiredVersion c) (Region c) (Cluster c) (Service c) (ServiceDefinitionPath c)
    (TaskDefinitionPath c) (Plugins c) (ConfigAppSpec c) (FilterCommand c) (Timeout c)
    (CodeDeploy c) (Ignore c) (Env c) (path c) v (jsonnetNativeFuncs c)
    (dir c) (versionConstraints c) (awsv2Config c).

(** [configLoader]: the embedded [goConfig.Loader] and the jsonnet VM. *)
Record configLoader : Type := mkConfigLoader {
  Loader : goConfig_Loader;
  VM : jsonnet_VM;
}.

(** ** The process and its state *)

(** What calls to collaborators can read and change: the process
    environment table and everything outside the process. *)
Record World : Type := mkWorld {
  environ : gmap string string;
  outside : Outside;
}.

(** The calls [config.go] makes to collaborators that act on the world. *)
Inductive Call : Type :=
| CallReadWithEnv (configPath : string)
| CallReadWithEnvBytes (b : bytes)
| CallEvaluateFile (filename : string)
| CallLoadDefaultConfig (optsFunc : list LoadOption)
| CallSetup (p : ConfigPlugin).

(** The state the code runs in.  [calls] is the history of the calls made
    so far, oldest first; no code reads it.  [awsv2ConfigLoadOptionsFunc] is
    the package-level variable of that name. *)
Record State : Type := mkState {
  world : World;
  logs : list string;
  calls : list Call;
  awsv2ConfigLoadOptionsFunc : list LoadOption;
}.

Definition M (A : Type) : Type := State → State * A.

#[export] Instance M_ret : MRet M := λ A a st, (st, a).
#[export] Instance M_bind : MBind M := λ A B k m st, let '(st', a) := m st in k a st'.

Definition set_environ (e : gmap string string) (st : State) : State :=
  mkState (mkWorld e (outside (world st))) (logs st) (calls st) (awsv2ConfigLoadOptionsFunc st).

Definition getenv_table (st : State) : gmap string string := environ (world st).

(** [os.LookupEnv], [os.Getenv], [os.Setenv], [os.Unsetenv] on the table.
    The table is a finite map from names to values, and names and values are
    those the operating system accepts: the error [os.Setenv] returns for a
    malformed name or value, which [config.go] ignores, is not modelled. *)
Definition os_LookupEnv (key : string) : M (option string) :=
  λ st, (st, getenv_table st !! key).

Definition os_Getenv (key : string) : M string :=
  λ st, (st, default "" (getenv_table st !! key)).

Definition os_Setenv (key value : string) : M unit :=
  λ st, (set_environ (<[key := value]> (getenv_table st)) st, tt).

Definition os_Unsetenv (key : string) : M unit :=
  λ st, (set_environ (delete key (getenv_table st)) st, tt).

(** Modelled from the spec: [Log] is declared outside [config.go]; it emits
    a message and changes nothing else. *)
Definition Log (msg : string) : M unit :=
  λ st, (mkState (world st) (logs st ++ [msg]) (calls st) (awsv2ConfigLoadOptionsFunc st), tt).

(** A call to a collaborator: it acts on the world, and the call is
    recorded. *)
Definition call {A : Type} (c : Call) (op : World → World * A) : M A :=
  λ st, let '(w, a) := op (world st) in
        (mkState w (logs st) (calls st ++ [c]) (awsv2ConfigLoadOptionsFunc st), a).

(** [for k, v := range m { body }] over the entries in a given order,
    threading what the body updates. *)
Fixpoint for_range {K V S : Type} (entries : list (K * V)) (body : K → V → S → M S)
    (s : S) : M S :=
  match entries with
  | [] => mret s
  | (k, v) :: rest => s' ← body k v s; for_range rest body s'
  end.

(** ** The collaborators

    Functions of libraries, and functions of this package that are declared
    outside [config.go] ([unmarshalYAML], [unmarshalJSON],
    [ConfigPlugin.Setup], [defaultPluginNames]): the code is modelled for
    every behaviour they may have.  A function that returns [(T, error)]
    and whose value the code reads only when the error is nil returns a sum;
    the others return the pair. *)
Class Collaborators : Type := {
  (* go-version *)
  NewConstraint : string → Constraints + error;
  NewVersion : string → Version + error;
  Constraints_Check : Constraints → Version → bool;
  Constraints_String : Constraints → string;
  (* aws-sdk-go-v2: the zero aws.Config, and the config package *)
  zero_aws_Config : aws_Config;
  WithRegion : string → LoadOption;
  LoadDefaultConfig : context_Context → list LoadOption → World → World * (aws_Config * option error);
  (* go-config *)
  Loader_ReadWithEnv : goConfig_Loader → string → World → World * (bytes * option error);
  Loader_ReadWithEnvBytes : goConfig_Loader → bytes → World → World * (bytes * option error);
  Loader_Funcs : FuncMap → goConfig_Loader → goConfig_Loader;
  (* go-jsonnet *)
  VM_EvaluateFile : jsonnet_VM → string → World → World * (string * option error);
  VM_NativeFunction : NativeFunction → jsonnet_VM → jsonnet_VM;
  (* this package, outside config.go *)
  unmarshalYAML : bytes → Config → string → Config * option error;
  unmarshalJSON : bytes → Config → string → Config * option error;
  defaultPluginNames : list string;
  Setup : ConfigPlugin → context_Context → Config → World → World * (Config * option error);
}.

Context `{Coll : Collaborators}.

(** ** [withExtraEnvSet] and the two readers *)

(** The body of the first loop: remember the old value, or nil, and set
    the new one. *)
Definition save_and_set (k v : string) (oldValues : gmap string (option string))
    : M (gmap string (option string)) :=
  ov ← os_LookupEnv k;
  _ ← os_Setenv k v;
  mret (<[k := ov]> oldValues).

(** The body of the deferred loop. *)
Definition put_back (k : string) (v : option string) (_ : unit) : M unit :=
  match v with
  | None => os_Unsetenv k
  | Some ov => os_Setenv k ov
  end.

(** [withExtraEnvSet] with the order in which each [range] visits its map
    made explicit: Go leaves that order unspecified. *)
Definition withExtraEnvSet_in_order
    (order1 : gmap string string → list (string * string))
    (order2 : gmap string (option string) → list (string * option string))
    (extraEnv : option (gmap string string))
    (f : M (bytes * option error)) : M (bytes * option error) :=
  match extraEnv with
  | Some extraEnv =>
      oldValues ← for_range (order1 extraEnv) save_and_set ∅;
      r ← f;
      _ ← for_range (order2 oldValues) put_back tt;
      mret r
  | None => f
  end.

Definition withExtraEnvSet (extraEnv : option (gmap string string))
    (f : M (bytes * option error)) : M (bytes * option error) :=
  withExtraEnvSet_in_order map_to_list map_to_list extraEnv f.

Definition ReadWithEnv (c : configLoader) (configPath : string)
    (extraEnv : option (gmap string string)) : M (bytes * option error) :=
  withExtraEnvSet extraEnv
    (call (CallReadWithEnv configPath) (Loader_ReadWithEnv (Loader c) configPath)).

Definition ReadWithEnvBytes (c : configLoader) (b : bytes)
    (extraEnv : option (gmap string string)) : M (bytes * option error) :=
  withExtraEnvSet extraEnv
    (call (CallReadWithEnvBytes b) (Loader_ReadWithEnvBytes (Loader c) b)).

(** ** The plugin pipeline *)

(** The loop of [setupPlugins] over the list it has built. *)
Fixpoint setupPlugins_loop (ctx : context_Context) (plugins : list ConfigPlugin) (c : Config)
    : M (Config * option error) :=
  match plugins with
  | [] => mret (c, None)
  | p :: rest =>
      '(c, err) ← call (CallSetup p) (Setup p ctx c);
      match err with
      | Some err => mret (c, Some err)
      | None => setupPlugins_loop ctx rest c
      end
  end.

Definition setupPlugins (ctx : context_Context) (c : Config) : M (Config * option error) :=
  let plugins := fold_left (λ plugins name, plugins ++ [mkConfigPlugin name None])
                   defaultPluginNames [] in
  let plugins := plugins ++ Plugins c in
  setupPlugins_loop ctx plugins c.

(** ** [Restrict] *)

Definition Restrict (ctx : context_Context) (c : Config) : M (Config * option error) :=
  let c := if bool_decide (Cluster c = "") then set_Cluster DefaultClusterName c else c in
  let c := if bool_decide (dir c = "") then set_dir "." c else c in
  let c :=
    if bool_decide (ServiceDefinitionPath c ≠ "") && negb (filepath.IsAbs (ServiceDefinitionPath c))
    then set_ServiceDefinitionPath (filepath.Join (dir c) (ServiceDefinitionPath c)) c
    else c in
  let c :=
    if bool_decide (TaskDefinitionPath c ≠ "") && negb (filepath.IsAbs (TaskDefinitionPath c))
    then set_TaskDefinitionPath (filepath.Join (dir c) (TaskDefinitionPath c)) c
    else c in
  let parsed :=
    if bool_decide (RequiredVersion c ≠ "") then
      match NewConstraint (RequiredVersion c) with
      | inr err => inr (Errorf_w "required_version has invalid format" err)
      | inl constraints => inl (set_versionConstraints (Some constraints) c)
      end
    else inl c in
  match parsed with
  | inr err => mret (c, Some err)
  | inl c =>
      let c :=
        match Timeout c with
        | None => set_Timeout (Some (mkDuration DefaultTimeout)) c
        | Some _ => c
        end in
      c ← (if bool_decide (Region c = "")
           then region ← os_Getenv "AWS_REGION"; mret (set_Region region c)
           else mret c);
      override ← (λ st, (st, awsv2ConfigLoadOptionsFunc st));
      let optsFunc :=
        if bool_decide (length override = 0) then [WithRegion (Region c)] else override in
      '(cfg, err) ← call (CallLoadDefaultConfig optsFunc) (LoadDefaultConfig ctx optsFunc);
      let c := set_awsv2Config cfg c in
      match err with
      | Some err => mret (c, Some (Errorf_w "failed to load aws config" err))
      | None =>
          '(c, err) ← setupPlugins ctx c;
          match err with
          | Some err => mret (c, Some (Errorf_w "failed to setup plugins" err))
          | None =>
              _ ← (if bool_decide (FilterCommand c ≠ "")
                   then Log "[WARNING] filter_command is deprecated. Use environment variable or CLI flag instead."
                   else mret tt);
              mret (c, None)
          end
      end
  end.

(** ** [ValidateVersion] *)

Definition ValidateVersion (c : Config) (version : string) : M (option error) :=
  match versionConstraints c with
  | None => mret None
  | Some constraints =>
      match NewVersion version with
      | inr _ =>
          _ ← Log ("[WARNING] Invalid version format " +:+ String (ascii_of_nat 34) version
                   +:+ String (ascii_of_nat 34) ". Skip checking required_version.");
          mret None
      | inl v =>
          if negb (Constraints_Check constraints v)
          then mret (Some ("version " +:+ version
                           +:+ " does not satisfy constraints required_version: "
                           +:+ Constraints_String constraints))
          else mret None
      end
  end.

(** ** [Load] *)

(** The zero [Config] with its [path] set: [&Config{path: path}]. *)
Definition new_Config (path : string) : Config :=
  mkConfig "" "" "" "" "" "" [] None "" None None None ∅ path [] [] "" None zero_aws_Config.

(** The [switch] of [Load]: read and decode the document by extension. *)
Definition Load_document (l : configLoader) (path : string) : M (Config + error) :=
  let conf := new_Config path in
  let ext := filepath.Ext path in
  if bool_decide (ext = ymlExt) || bool_decide (ext = yamlExt) then
    '(b, err) ← ReadWithEnv l path None;
    match err with
    | Some err => mret (inr err)
    | None =>
        let '(conf, err) := unmarshalYAML b conf path in
        match err with
        | Some err => mret (inr (Errorf_w "failed to parse yaml" err))
        | None => mret (inl conf)
        end
    end
  else if bool_decide (ext = jsonExt) || bool_decide (ext = jsonnetExt) then
    '(jsonStr, err) ← call (CallEvaluateFile path) (VM_EvaluateFile (VM l) path);
    match err with
    | Some err => mret (inr (Errorf_w "failed to evaluate jsonnet file" err))
    | None =>
        '(b, err) ← ReadWithEnvBytes l jsonStr None;
        match err with
        | Some err => mret (inr (Errorf_w "failed to read template file" err))
        | None =>
            let '(conf, err) := unmarshalJSON b conf path in
            match err with
            | Some err => mret (inr (Errorf_w "failed to unmarshal json" err))
            | None => mret (inl conf)
            end
        end
    end
  else mret (inr ("unsupported config file extension: " +:+ ext)).

(** [Load]: the loader after the call (its two registration loops have run
    on success) and the pair the caller receives. *)
Definition Load (l : configLoader) (ctx : context_Context) (path version : string)
    : M (configLoader * (option Config * option error)) :=
  r ← Load_document l path;
  match r with
  | inr err => mret (l, (None, Some err))
  | inl conf =>
      let conf := set_dir (filepath.Dir path) conf in
      '(conf, err) ← Restrict ctx conf;
      match err with
      | Some err => mret (l, (None, Some err))
      | None =>
          err ← ValidateVersion conf version;
          match err with
          | Some err => mret (l, (None, Some err))
          | None =>
              let l := fold_left (λ l f, mkConfigLoader (Loader_Funcs f (Loader l)) (VM l))
                         (templateFuncs conf) l in
              let l := fold_left (λ l f, mkConfigLoader (Loader l) (VM_NativeFunction f (VM l)))
                         (jsonnetNativeFuncs conf) l in
              mret (l, (Some conf, None))
          end
      end
  end.

End Model.

(** ** [OverrideByCLIOptions] and [NewDefaultConfig] *)

(** Modelled from the spec: [CLIOptions] is declared outside [config.go];
    the code reads its optional timeout, a [*time.Duration], and its
    filter-command string. *)
Record CLIOptions : Type := mkCLIOptions {
  CLIOptions_Timeout : option Z;
  CLIOptions_FilterCommand : string;
}.

Section OtherFunctions.
Context `{ET : ExternalTypes} `{Coll : !Collaborators}.

Definition set_FilterCommand (v : string) (c : Config) : Config :=
  mkConfig (RequiredVersion c) (Region c) (Cluster c) (Service c) (ServiceDefinitionPath c)
    (TaskDefinitionPath c) (Plugins c) (ConfigAppSpec c) v (Timeout c)
    (CodeDeploy c) (Ignore c) (Env c) (path c) (templateFuncs c) (jsonnetNativeFuncs c)
    (dir c) (versionConstraints c) (awsv2Config c).

(** [OverrideByCLIOptions]: the configuration after the call. *)
Definition OverrideByCLIOptions (c : Config) (opt : CLIOptions) : Config :=
  let c :=
    match CLIOptions_Timeout opt with
    | Some timeout => set_Timeout (Some (mkDuration timeout)) c
    | None => c
    end in
  if bool_decide (CLIOptions_FilterCommand opt ≠ "")
  then set_FilterCommand (CLIOptions_FilterCommand opt) c
  else c.

(** [NewDefaultConfig]: every field is zero but [Region] and [Timeout]. *)
Definition NewDefaultConfig : M Config :=
  region ← os_Getenv "AWS_REGION";
  mret (mkConfig "" region "" "" "" "" [] None "" (Some (mkDuration DefaultTimeout))
          None None ∅ "" [] [] "" None zero_aws_Config).

End OtherFunctions.

(** ** A stand-in for the collaborators

    One concrete choice of collaborators, small enough to run: files are a
    table from path to content, a document is a list of [key: value] lines,
    versions are dotted numbers, a constraint is [>= version], and three
    plugins exist.  It is used to run the model on examples. *)
Module standin.

Fixpoint digits_value (acc : nat) (s : string) : option nat :=
  match s with
  | EmptyString => Some acc
  | String c rest =>
      let n := nat_of_ascii c in
      if (48 <=? n) && (n <=? 57) then digits_value (10 * acc + (n - 48)) rest else None
  end.

Definition number (s : string) : option nat :=
  if bool_decide (s = "") then None else digits_value 0 s.

Definition parse_version (s : string) : option (list nat) :=
  mapM number (split_on "." s).

Fixpoint version_le (a b : list nat) : bool :=
  match a, b with
  | [], _ => true
  | x :: a', [] => (x =? 0) && version_le a' []
  | x :: a', y :: b' => (x <? y) || ((x =? y) && version_le a' b')
  end.

Fixpoint drop_chars (n : nat) (s : string) : string :=
  match n, s with
  | S n', String _ rest => drop_chars n' rest
  | _, _ => s
  end.

#[export] Instance types : ExternalTypes := {|
  Outside := gmap string string;
  context_Context := unit;
  FuncMap := string;
  NativeFunction := string;
  goConfig_Loader := list string;
  jsonnet_VM := list string;
  Constraints := string * list nat;
  Version := list nat;
  aws_Config := string;
  LoadOption := string;
  AppSpec := unit;
  PluginConfig := gmap string string;
|}.

Definition new_constraint (s : string) : (string * list nat) + error :=
  if has_prefix ">= " s then
    match parse_version (drop_chars 3 s) with
    | Some v => inl (s, v)
    | None => inr ("Malformed constraint: " +:+ s)
    end
  else inr ("Malformed constraint: " +:+ s).

Definition new_version (s : string) : list nat + error :=
  match parse_version s with
  | Some v => inl v
  | None => inr ("Malformed version: " +:+ s)
  end.

Definition read_file (name : string) (w : World) : World * (string * option error) :=
  match outside w !! name with
  | Some content => (w, (content, None))
  | None => (w, ("", Some ("open " +:+ name +:+ ": no such file or directory")))
  end.

(** The text before and after the first [": "] of a line. *)
Fixpoint cut (line : string) : option (string * string) :=
  match line with
  | EmptyString => None
  | String c rest =>
      if has_prefix ": " line then Some ("", drop_chars 2 line)
      else match cut rest with
           | Some (k, v) => Some (String c k, v)
           | None => None
           end
  end.

Definition known_keys : list string :=
  ["required_version"; "region"; "cluster"; "service"; "service_definition";
   "task_definition"; "filter_command"; "plugin"].

Definition decode_line (line : string) (c : Config) : Config * option error :=
  if bool_decide (line = "") then (c, None)
  else match cut line with
       | None => (c, Some ("cannot decode " +:+ line))
       | Some (key, value) =>
           if bool_decide (key ∈ known_keys) then
             let pick (k old : string) := if bool_decide (key = k) then value else old in
             (mkConfig (pick "required_version" (RequiredVersion c)) (pick "region" (Region c))
                (pick "cluster" (Cluster c)) (pick "service" (Service c))
                (pick "service_definition" (ServiceDefinitionPath c))
                (pick "task_definition" (TaskDefinitionPath c))
                (if bool_decide (key = "plugin")
                 then Plugins c ++ [mkConfigPlugin value None] else Plugins c)
                (ConfigAppSpec c) (pick "filter_command" (FilterCommand c)) (Timeout c)
                (CodeDeploy c) (Ignore c) (Env c) (path c) (templateFuncs c)
                (jsonnetNativeFuncs c) (dir c) (versionConstraints c) (awsv2Config c), None)
           else (c, Some ("field " +:+ key +:+ " not found in type ecspresso.Config"))
       end.

Fixpoint decode_lines (lines : list string) (c : Config) : Config * option error :=
  match lines with
  | [] => (c, None)
  | line :: rest =>
      match decode_line line c with
      | (c, None) => decode_lines rest c
      | (c, Some err) => (c, Some err)
      end
  end.

Definition decode (b : bytes) (c : Config) (path : string) : Config * option error :=
  match decode_lines (split_on (ascii_of_nat 10) b) c with
  | (c, Some err) => (c, Some (path +:+ ": " +:+ err))
  | r => r
  end.

Definition setup (p : ConfigPlugin) (_ : unit) (c : Config) (w : World)
    : World * (Config * option error) :=
  if bool_decide (Name p ∈ ["ssm"; "secretsmanager"]) then
    (w, (set_templateFuncs (templateFuncs c ++ [Name p]) c, None))
  else if bool_decide (Name p = "tfstate") then
    match PluginPayload p ≫= (λ m : gmap string string, m !! "path") with
    | None => (w, (c, Some "tfstate plugin requires path or url for tfstate location"))
    | Some location =>
        match outside w !! location with
        | Some _ => (w, (set_templateFuncs (templateFuncs c ++ [Name p]) c, None))
        | None => (w, (c, Some ("open " +:+ location +:+ ": no such file or directory")))
        end
    end
  else (w, (c, Some ("plugin " +:+ Name p +:+ " is not available"))).

#[export] Instance collaborators : Collaborators := {|
  NewConstraint := new_constraint;
  NewVersion := new_version;
  Constraints_Check := λ cs v, version_le (snd cs) v;
  Constraints_String := fst;
  zero_aws_Config := "";
  WithRegion := λ region, region;
  LoadDefaultConfig := λ _ optsFunc w, (w, (default "" (last optsFunc), None));
  Loader_ReadWithEnv := λ _ name w, read_file name w;
  Loader_ReadWithEnvBytes := λ _ b w, (w, (b, None));
  Loader_Funcs := λ f loader, loader ++ [f];
  VM_EvaluateFile := λ _ name w, read_file name w;
  VM_NativeFunction := λ f vm, vm ++ [f];
  unmarshalYAML := decode;
  unmarshalJSON := decode;
  defaultPluginNames := ["ssm"; "secretsmanager"];
  Setup := setup;
|}.

Definition newline : string := String (ascii_of_nat 10) "".

(** A process with the given environment and files, nothing logged, no
    call made, no override of the AWS load options. *)
Definition process (env files : gmap string string) : State :=
  mkState (mkWorld env files) [] [] [].

Definition loader : configLoader := mkConfigLoader [] [].

(** A service whose tags are stored in a field. *)
Record EcsService : Type := mkEcsService { ServiceName : string; ServiceTags : list Tag }.

#[export] Instance EcsService_hasTags : hasTags EcsService := {|
  GetTags := ServiceTags;
  SetTags := λ tags v, mkEcsService (ServiceName v) tags;
|}.

(** A document, as a file of the stand-in. *)
Definition document (lines : list string) : string :=
  fold_right (λ line rest, line +:+ newline +:+ rest) "" lines.

End standin.

(** * The vocabulary of the properties

    Names for the steps of [Restrict] and [Load], for what a run of the
    plugin pipeline is, and for the conditions the theorems are stated
    under. *)

Section Vocabulary.
Context `{ET : ExternalTypes} `{Coll : !Collaborators}.

(** An order in which a [range] may visit a map: each entry once. *)
Definition visits_each_entry_once {V : Type} (order : gmap string V → list (string * V)) : Prop :=
  ∀ m, order m ≡ₚ map_to_list m.

(** The assignments of [Restrict] before the constraint is parsed. *)
Definition with_defaults (c : Config) : Config :=
  let c := if bool_decide (Cluster c = "") then set_Cluster DefaultClusterName c else c in
  let c := if bool_decide (dir c = "") then set_dir "." c else c in
  let c :=
    if bool_decide (ServiceDefinitionPath c ≠ "") && negb (filepath.IsAbs (ServiceDefinitionPath c))
    then set_ServiceDefinitionPath (filepath.Join (dir c) (ServiceDefinitionPath c)) c
    else c in
  if bool_decide (TaskDefinitionPath c ≠ "") && negb (filepath.IsAbs (TaskDefinitionPath c))
  then set_TaskDefinitionPath (filepath.Join (dir c) (TaskDefinitionPath c)) c
  else c.

(** The parse of [required_version]. *)
Definition parse_required_version (c : Config) : Config + error :=
  if bool_decide (RequiredVersion c ≠ "") then
    match NewConstraint (RequiredVersion c) with
    | inr err => inr (Errorf_w "required_version has invalid format" err)
    | inl constraints => inl (set_versionConstraints (Some constraints) c)
    end
  else inl c.

(** The defaults for the timeout and the region. *)
Definition with_timeout_and_region (st : State) (c : Config) : Config :=
  let c :=
    match Timeout c with
    | None => set_Timeout (Some (mkDuration DefaultTimeout)) c
    | Some _ => c
    end in
  if bool_decide (Region c = "")
  then set_Region (default "" (getenv_table st !! "AWS_REGION")) c
  else c.

(** The options [LoadDefaultConfig] is called with. *)
Definition load_options (st : State) (c : Config) : list LoadOption :=
  if bool_decide (length (awsv2ConfigLoadOptionsFunc st) = 0)
  then [WithRegion (Region c)]
  else awsv2ConfigLoadOptionsFunc st.

(** The state after the call to [LoadDefaultConfig] returned world [w]. *)
Definition after_load_call (st : State) (opts : list LoadOption) (w : World) : State :=
  mkState w (logs st) (calls st ++ [CallLoadDefaultConfig opts]) (awsv2ConfigLoadOptionsFunc st).

(** The state after the deprecation warning of [Restrict], if it is due. *)
Definition warn_filter_command (c : Config) (st : State) : State :=
  if bool_decide (FilterCommand c ≠ "")
  then fst (Log "[WARNING] filter_command is deprecated. Use environment variable or CLI flag instead." st)
  else st.

(** The directory paths are resolved against, and a path resolved. *)
Definition configDir (c : Config) : string :=
  if bool_decide (dir c = "") then "." else dir c.

(** What [Restrict] makes of a path [p] of the configuration [c]. *)
Definition resolved (c : Config) (p : string) : string :=
  if bool_decide (p ≠ "") && negb (filepath.IsAbs p) then filepath.Join (configDir c) p else p.

(** A field that the steps after the defaults do not assign. *)
Definition later_steps_keep {A : Type} (field : Config → A) : Prop :=
  (∀ v c, field (set_versionConstraints v c) = field c)
  ∧ (∀ v c, field (set_Region v c) = field c)
  ∧ (∀ v c, field (set_awsv2Config v c) = field c).

(** An element as [Clean] writes it: not empty, and not starting with a
    separator. *)
Definition written_element (e : string) : Prop := e ≠ "" ∧ filepath.IsAbs e = false.

(** An element that does not start with the separator. *)
Definition separator_free_head (sep : ascii) (e : string) : Prop :=
  match e with
  | String c _ => c ≠ sep
  | EmptyString => True
  end.

(** The list [setupPlugins] builds: a plugin for each default name, then
    the declared plugins. *)
Definition pipeline (c : Config) : list ConfigPlugin :=
  ((λ name, mkConfigPlugin name None) <$> defaultPluginNames) ++ Plugins c.

(** A run of [Setup] over a list of plugins, one after the other, each on
    the configuration and the world the one before it left: the plugins
    invoked, where the run ends, and the error it ends with.  The run stops
    at the first [Setup] that returns an error, with that error. *)
Inductive pipeline_run (ctx : context_Context) :
  list ConfigPlugin → Config → World → list ConfigPlugin → Config → World → option error → Prop :=
| run_end (c : Config) (w : World) :
    pipeline_run ctx [] c w [] c w None
| run_failure (p : ConfigPlugin) (rest : list ConfigPlugin)
    (c c' : Config) (w w' : World) (err : error) :
    Setup p ctx c w = (w', (c', Some err)) →
    pipeline_run ctx (p :: rest) c w [p] c' w' (Some err)
| run_success (p : ConfigPlugin) (rest invoked : list ConfigPlugin)
    (c c1 c' : Config) (w w1 w' : World) (err : option error) :
    Setup p ctx c w = (w1, (c1, None)) →
    pipeline_run ctx rest c1 w1 invoked c' w' err →
    pipeline_run ctx (p :: rest) c w (p :: invoked) c' w' err.

(** A [Setup] that leaves a field of the configuration as it is. *)
Definition Setup_keeps {A : Type} (field : Config → A) : Prop :=
  ∀ p ctx c w, field (fst (snd (Setup p ctx c w))) = field c.

(** The two cases of the [switch] of [Load]. *)
Definition is_yaml (ext : string) : bool :=
  bool_decide (ext = ymlExt) || bool_decide (ext = yamlExt).

Definition is_json (ext : string) : bool :=
  negb (is_yaml ext) && (bool_decide (ext = jsonExt) || bool_decide (ext = jsonnetExt)).

(** The state after a call [c] that returned world [w]. *)
Definition after_call (st : State) (c : Call) (w : World) : State :=
  mkState w (logs st) (calls st ++ [c]) (awsv2ConfigLoadOptionsFunc st).

(** The loader after the two registration loops at the end of [Load]. *)
Definition with_registered (conf : Config) (l : configLoader) : configLoader :=
  let l := fold_left (λ l f, mkConfigLoader (Loader_Funcs f (Loader l)) (VM l))
             (templateFuncs conf) l in
  fold_left (λ l f, mkConfigLoader (Loader l) (VM_NativeFunction f (VM l)))
    (jsonnetNativeFuncs conf) l.

(** The ways [Restrict] fails: the constraint does not parse, the AWS
    configuration does not load, a plugin's [Setup] fails. *)
Inductive Restrict_failure (ctx : context_Context) (c : Config) (st : State) : error → Prop :=
| constraint_syntax_error (err : error) :
    RequiredVersion c ≠ "" →
    NewConstraint (RequiredVersion c) = inr err →
    Restrict_failure ctx c st ("required_version has invalid format: " +:+ err)
| credential_resolution_error (c2 : Config) (w : World) (cfg : aws_Config) (err : error) :
    parse_required_version (with_defaults c) = inl c2 →
    LoadDefaultConfig ctx (load_options st (with_timeout_and_region st c2)) (world st)
    = (w, (cfg, Some err)) →
    Restrict_failure ctx c st ("failed to load aws config: " +:+ err)
| plugin_setup_error (c2 : Config) (w : World) (cfg : aws_Config)
    (st5 : State) (c5 : Config) (err : error) :
    parse_required_version (with_defaults c) = inl c2 →
    LoadDefaultConfig ctx (load_options st (with_timeout_and_region st c2)) (world st)
    = (w, (cfg, None)) →
    setupPlugins ctx (set_awsv2Config cfg (with_timeout_and_region st c2))
      (after_load_call st (load_options st (with_timeout_and_region st c2)) w)
    = (st5, (c5, Some err)) →
    Restrict_failure ctx c st ("failed to setup plugins: " +:+ err).

(** The ways [Load] fails, stage by stage. *)
Inductive Load_failure (l : configLoader) (ctx : context_Context) (path version : string)
    (st : State) : error → Prop :=
| unsupported_format_error :
    is_yaml (filepath.Ext path) = false → is_json (filepath.Ext path) = false →
    Load_failure l ctx path version st
      ("unsupported config file extension: " +:+ filepath.Ext path)
| yaml_read_error (w : World) (b : bytes) (err : error) :
    is_yaml (filepath.Ext path) = true →
    Loader_ReadWithEnv (Loader l) path (world st) = (w, (b, Some err)) →
    Load_failure l ctx path version st err
| yaml_decode_error (w : World) (b : bytes) (conf : Config) (err : error) :
    is_yaml (filepath.Ext path) = true →
    Loader_ReadWithEnv (Loader l) path (world st) = (w, (b, None)) →
    unmarshalYAML b (new_Config path) path = (conf, Some err) →
    Load_failure l ctx path version st ("failed to parse yaml: " +:+ err)
| evaluation_error (w : World) (jsonStr : string) (err : error) :
    is_json (filepath.Ext path) = true →
    VM_EvaluateFile (VM l) path (world st) = (w, (jsonStr, Some err)) →
    Load_failure l ctx path version st ("failed to evaluate jsonnet file: " +:+ err)
| template_read_error (w w' : World) (jsonStr : string) (b : bytes) (err : error) :
    is_json (filepath.Ext path) = true →
    VM_EvaluateFile (VM l) path (world st) = (w, (jsonStr, None)) →
    Loader_ReadWithEnvBytes (Loader l) jsonStr w = (w', (b, Some err)) →
    Load_failure l ctx path version st ("failed to read template file: " +:+ err)
| json_decode_error (w w' : World) (jsonStr : string) (b : bytes) (conf : Config) (err : error) :
    is_json (filepath.Ext path) = true →
    VM_EvaluateFile (VM l) path (world st) = (w, (jsonStr, None)) →
    Loader_ReadWithEnvBytes (Loader l) jsonStr w = (w', (b, None)) →
    unmarshalJSON b (new_Config path) path = (conf, Some err) →
    Load_failure l ctx path version st ("failed to unmarshal json: " +:+ err)
| normalization_error (st1 : State) (conf : Config) (err : error) :
    Load_document l path st = (st1, inl conf) →
    Restrict_failure ctx (set_dir (filepath.Dir path) conf) st1 err →
    Load_failure l ctx path version st err
| version_mismatch_error (st1 st2 st3 : State) (conf conf' : Config) (err : error) :
    Load_document l path st = (st1, inl conf) →
    Restrict ctx (set_dir (filepath.Dir path) conf) st1 = (st2, (conf', None)) →
    ValidateVersion conf' version st2 = (st3, Some err) →
    Load_failure l ctx path version st err.

(** Collaborators that read the environment table and do not change it. *)
Definition collaborators_leave_environ : Prop :=
  (∀ ctx opts w, environ (fst (LoadDefaultConfig ctx opts w)) = environ w)
  ∧ (∀ loader configPath w, environ (fst (Loader_ReadWithEnv loader configPath w)) = environ w)
  ∧ (∀ loader b w, environ (fst (Loader_ReadWithEnvBytes loader b w)) = environ w)
  ∧ (∀ vm filename w, environ (fst (VM_EvaluateFile vm filename w)) = environ w)
  ∧ (∀ p ctx c w, environ (fst (Setup p ctx c w)) = environ w).

(** An operation that leaves the environment table as it finds it. *)
Definition leaves_environ {A : Type} (f : M A) : Prop :=
  ∀ st, getenv_table (fst (f st)) = getenv_table st.

(** The options that have the effect of [first] followed by [second]. *)
Definition then_options (first second : CLIOptions) : CLIOptions :=
  mkCLIOptions
    (match CLIOptions_Timeout second with
     | Some timeout => Some timeout
     | None => CLIOptions_Timeout first
     end)
    (if bool_decide (CLIOptions_FilterCommand second ≠ "")
     then CLIOptions_FilterCommand second
     else CLIOptions_FilterCommand first).

End Vocabulary.

(** * Properties *)

(** ** Strings *)

Lemma append_assoc (a b c : string) : (a +:+ b) +:+ c = a +:+ b +:+ c.
Proof.
  induction a as [|x a IH]; [done|].
  change (String x ((a +:+ b) +:+ c) = String x (a +:+ b +:+ c)). by f_equal.
Qed.

Lemma append_empty_r (a : string) : a +:+ "" = a.
Proof.
  induction a as [|x a IH]; [done|].
  change (String x (a +:+ "") = String x a). by f_equal.
Qed.

Lemma has_prefix_app (sub after : string) : has_prefix sub (sub +:+ after) = true.
Proof.
  induction sub as [|a sub IH]; simpl; [done|].
  rewrite bool_decide_eq_true_2; done.
Qed.

Lemma has_prefix_spec (sub s : string) :
  has_prefix sub s = true ↔ ∃ after, s = sub +:+ after.
Proof.
  split.
  - revert s. induction sub as [|a sub IH]; intros s H; simpl in *.
    + by exists s.
    + destruct s as [|b s]; [done|].
      apply andb_true_iff in H as [Hab Hrest].
      apply bool_decide_eq_true in Hab as ->.
      destruct (IH _ Hrest) as [after ->]. by exists after.
  - intros [after ->]. apply has_prefix_app.
Qed.

Lemma contains_app (before sub after : string) :
  contains (before +:+ sub +:+ after) sub = true.
Proof.
  induction before as [|c before IH]; simpl.
  - destruct (sub +:+ after) eqn:E; simpl; rewrite <- E, has_prefix_app; done.
  - rewrite IH. apply orb_true_r.
Qed.

(** [contains] decides occurrence. *)
Lemma contains_spec (s sub : string) :
  contains s sub = true ↔ ∃ before after, s = before +:+ sub +:+ after.
Proof.
  split.
  - induction s as [|c s IH]; simpl; intros H.
    + rewrite orb_false_r in H. apply has_prefix_spec in H as [after E].
      by exists "", after.
    + apply orb_true_iff in H as [H|H].
      * apply has_prefix_spec in H as [after E]. by exists "", after.
      * destruct (IH H) as (before & after & ->). by exists (String c before), after.
  - intros (before & after & ->). apply contains_app.
Qed.

(** ** The tag filter *)

Lemma lo_Contains_spec (collection : list string) (element : string) :
  lo_Contains collection element = true ↔ element ∈ collection.
Proof.
  induction collection as [|item rest IH]; simpl.
  - split; [done | by intros ?%elem_of_nil].
  - case_bool_decide as E.
    + subst. split; [intros _; left | done].
    + rewrite IH. split; [by right|].
      intros [?|?]%elem_of_cons; [congruence | done].
Qed.

Lemma filter_all {A : Type} (P : A → Prop) `{!∀ x, Decision (P x)} (l : list A) :
  (∀ x, x ∈ l → P x) → filter P l = l.
Proof.
  induction l as [|x l IH]; intros Hall; [done|].
  rewrite filter_cons_True by (apply Hall; left).
  f_equal. apply IH. intros y Hy. apply Hall. by right.
Qed.

Lemma filter_twice {A : Type} (P : A → Prop) `{!∀ x, Decision (P x)} (l : list A) :
  filter P (filter P l) = filter P l.
Proof. apply filter_all. intros x Hx. by apply list_elem_of_filter in Hx as [? _]. Qed.

(** [lo.Filter] with the predicate of [filterTags] is the list filter that
    keeps the tags whose key is not among [keys]. *)
Lemma lo_Filter_from_ignored (keys : list string) (index : nat) (tags : list Tag) :
  lo_Filter_from index (λ tag _, negb (lo_Contains keys (aws_ToString (Key tag)))) tags
  = filter (λ tag, aws_ToString (Key tag) ∉ keys) tags.
Proof.
  revert index. induction tags as [|tag rest IH]; intros index; simpl; [done|].
  rewrite IH. destruct (lo_Contains keys (aws_ToString (Key tag))) eqn:E; simpl.
  - apply lo_Contains_spec in E. by rewrite filter_cons_False by (intros Hn; by apply Hn).
  - rewrite filter_cons_True; [done|].
    intros Hin. apply lo_Contains_spec in Hin. congruence.
Qed.

Lemma filterTags_filter (i : option ConfigIgnore) (tags : list Tag) :
  filterTags i tags = filter (λ tag, aws_ToString (Key tag) ∉ ignored_keys i) tags.
Proof.
  destruct i as [i|]; simpl.
  - case_bool_decide as Hlen.
    + apply length_zero_iff_nil in Hlen. rewrite Hlen.
      symmetry. apply filter_all. intros tag _. apply not_elem_of_nil.
    + apply lo_Filter_from_ignored.
  - symmetry. apply filter_all. intros tag _. apply not_elem_of_nil.
Qed.

(** C6. [ConfigIgnore.Apply] reads the tags of the entity, filters them and
    sets the result; the error is nil.  On an entity that stores its tags,
    the tags afterwards are the old tags without those whose key is in the
    rule's key list, the others kept in their order; with a nil rule or an
    empty key list the tags are unchanged; and a second [Apply] leaves the
    tags as the first one left them. *)
Theorem Apply_filters_tags_idempotent
    (T : Type) `{hasTags T} (Hstore : stores_tags T)
    (i : option ConfigIgnore) (v : T) :
  let once := fst (Apply i v) in
  let twice := fst (Apply i once) in
  snd (Apply i v) = None
  ∧ once = SetTags (filterTags i (GetTags v)) v
  ∧ GetTags once = filterTags i (GetTags v)
  ∧ filterTags i (GetTags v)
    = filter (λ tag, aws_ToString (Key tag) ∉ ignored_keys i) (GetTags v)
  ∧ (∀ tag, tag ∈ GetTags once ↔ tag ∈ GetTags v ∧ aws_ToString (Key tag) ∉ ignored_keys i)
  ∧ (ignored_keys i = [] → GetTags once = GetTags v)
  ∧ GetTags twice = GetTags once.
Proof.
  intros once twice. subst once twice. unfold Apply. simpl.
  rewrite !Hstore. rewrite !filterTags_filter.
  split; [done|]. split; [done|].
  split; [done|]. split; [done|]. split; [|split].
  - intros tag. rewrite list_elem_of_filter. tauto.
  - intros ->. apply filter_all. intros tag _. apply not_elem_of_nil.
  - apply filter_twice.
Qed.

(** Without any assumption on the entity: [filterTags] itself is
    idempotent and keeps a sublist. *)
Lemma filterTags_idempotent (i : option ConfigIgnore) (tags : list Tag) :
  filterTags i (filterTags i tags) = filterTags i tags.
Proof. rewrite !filterTags_filter. apply filter_twice. Qed.

Lemma filterTags_sublist (i : option ConfigIgnore) (tags : list Tag) :
  filterTags i tags `sublist_of` tags.
Proof. rewrite filterTags_filter. apply sublist_filter. Qed.

(** ** The code in the state monad *)

Section Properties.
Context `{ET : ExternalTypes} `{Coll : !Collaborators}.

(** The functions of the code are unfolded by name only. *)
#[local] Arguments Restrict : simpl never.
#[local] Arguments Load_document : simpl never.
#[local] Arguments Load : simpl never.
#[local] Arguments ValidateVersion : simpl never.
#[local] Arguments setupPlugins : simpl never.
#[local] Arguments filepath.Dir : simpl never.
#[local] Arguments filepath.Join : simpl never.
#[local] Arguments filepath.Clean : simpl never.
#[local] Arguments filepath.Ext : simpl never.

(** Unfolds the monad and splits the pairs that computations return. *)
Ltac run :=
  repeat (simpl in *; unfold mbind, mret, M_bind, M_ret, call, Log,
            os_Getenv, os_LookupEnv, os_Setenv, os_Unsetenv in *).

(** C2. [ValidateVersion] returns an error exactly when a constraint set
    was parsed, the version string parses, and the parsed version violates
    the constraints; the error then names the version string and the
    constraint expression.  With no constraint set, with a version string
    that does not parse, and with a version that satisfies the constraints,
    it returns nil. *)
Theorem ValidateVersion_error_iff (c : Config) (version : string) (st : State) :
  let err := snd (ValidateVersion c version st) in
  (is_Some err ↔
     ∃ constraints v, versionConstraints c = Some constraints
                      ∧ NewVersion version = inl v
                      ∧ Constraints_Check constraints v = false)
  ∧ (∀ e, err = Some e →
       ∃ constraints, versionConstraints c = Some constraints
         ∧ e = "version " +:+ version +:+ " does not satisfy constraints required_version: "
               +:+ Constraints_String constraints
         ∧ contains e version = true
         ∧ contains e (Constraints_String constraints) = true)
  ∧ (versionConstraints c = None → err = None)
  ∧ (∀ parse_error, NewVersion version = inr parse_error → err = None)
  ∧ (∀ constraints v, versionConstraints c = Some constraints → NewVersion version = inl v →
       Constraints_Check constraints v = true → err = None).
Proof.
  intros err. subst err. unfold ValidateVersion.
  destruct (versionConstraints c) as [constraints|] eqn:Hc.
  2:{ run. repeat split; try done. intros (? & ? & [=] & _). }
  destruct (NewVersion version) as [v|parse_error] eqn:Hv.
  2:{ run. repeat split; try done. intros (? & ? & _ & [=] & _). }
  destruct (Constraints_Check constraints v) eqn:Hcheck; run.
  - repeat split; try done;
      try (intros (cs' & v' & E1 & E2 & E3); congruence);
      try (intros cs' v' E1 E2 E3; congruence).
  - split; [|split; [|split; [|split]]]; try done.
    + split; [|done]. intros _. by exists constraints, v.
    + intros e [= <-]. exists constraints. split; [done|]. split; [done|]. split.
      * apply (contains_app "version " version).
      * pose proof (contains_app
          ("version " +:+ version +:+ " does not satisfy constraints required_version: ")
          (Constraints_String constraints) "") as Hin.
        rewrite append_empty_r, !append_assoc in Hin. exact Hin.
    + intros cs' v' [= <-] [= <-]. congruence.
Qed.

(** ** The scoped environment overlay *)

Lemma set_environ_id (st : State) : set_environ (getenv_table st) st = st.
Proof. by destruct st as [[? ?] ? ? ?]. Qed.

Lemma set_environ_twice (e1 e2 : gmap string string) (st : State) :
  set_environ e2 (set_environ e1 st) = set_environ e2 st.
Proof. done. Qed.

Lemma getenv_table_set (e : gmap string string) (st : State) :
  getenv_table (set_environ e st) = e.
Proof. done. Qed.

(** The first loop, over entries with distinct keys: the table afterwards
    has the entries on top of the old table, and [oldValues] has gained, for
    each key, what the table held for it before the loop. *)
Lemma for_range_save_and_set (entries : list (string * string)) :
  ∀ (oldValues : gmap string (option string)) (st : State),
    NoDup entries.*1 →
    ∃ env' oldValues',
      for_range entries save_and_set oldValues st = (set_environ env' st, oldValues')
      ∧ (∀ j, env' !! j = match (list_to_map entries : gmap string string) !! j with
                          | Some v => Some v
                          | None => getenv_table st !! j
                          end)
      ∧ (∀ j, oldValues' !! j = if decide (j ∈ entries.*1)
                                then Some (getenv_table st !! j)
                                else oldValues !! j).
Proof.
  induction entries as [|[k v] rest IH]; intros oldValues st Hnd.
  - exists (getenv_table st), oldValues. simpl. rewrite set_environ_id.
    split; [done|]. split; intros j; [by rewrite lookup_empty | done].
  - rewrite fmap_cons in Hnd. apply NoDup_cons in Hnd as [Hk Hnd].
    destruct (IH (<[k := getenv_table st !! k]> oldValues)
                 (set_environ (<[k := v]> (getenv_table st)) st) Hnd)
      as (env' & oldValues' & Hrun & Henv & Hold).
    exists env', oldValues'. split; [|split].
    + simpl. run. exact Hrun.
    + intros j. rewrite Henv, getenv_table_set. simpl.
      destruct (decide (k = j)) as [->|Hne].
      * rewrite lookup_insert_eq.
        rewrite (not_elem_of_list_to_map_1 rest j Hk). by rewrite lookup_insert_eq.
      * rewrite !(lookup_insert_ne _ k j) by done. done.
    + intros j. rewrite Hold, getenv_table_set. rewrite fmap_cons. simpl.
      destruct (decide (k = j)) as [->|Hne].
      * rewrite decide_False by done. rewrite lookup_insert_eq.
        rewrite decide_True by left. done.
      * rewrite !(lookup_insert_ne _ k j) by done.
        destruct (decide (j ∈ rest.*1)) as [Hin|Hnin].
        -- rewrite decide_True by (by right). done.
        -- rewrite decide_False; [done|]. intros [?|?]%elem_of_cons; done.
Qed.

(** The deferred loop, over entries with distinct keys: each key is back at
    the value recorded for it, absent when nil was recorded; the other keys
    are left alone. *)
Lemma for_range_put_back (entries : list (string * option string)) :
  ∀ (st : State),
    NoDup entries.*1 →
    ∃ env',
      for_range entries put_back tt st = (set_environ env' st, tt)
      ∧ (∀ j, env' !! j = match (list_to_map entries : gmap string (option string)) !! j with
                          | Some ov => ov
                          | None => getenv_table st !! j
                          end).
Proof.
  induction entries as [|[k ov] rest IH]; intros st Hnd.
  - exists (getenv_table st). simpl. rewrite set_environ_id.
    split; [done|]. intros j. by rewrite lookup_empty.
  - rewrite fmap_cons in Hnd. apply NoDup_cons in Hnd as [Hk Hnd].
    set (env1 := match ov with
                 | None => delete k (getenv_table st)
                 | Some v => <[k := v]> (getenv_table st)
                 end).
    destruct (IH (set_environ env1 st) Hnd) as (env' & Hrun & Henv).
    exists env'. split.
    + simpl. run. destruct ov; exact Hrun.
    + intros j. rewrite Henv, getenv_table_set. simpl.
      destruct (decide (k = j)) as [->|Hne].
      * rewrite lookup_insert_eq.
        rewrite (not_elem_of_list_to_map_1 rest j Hk).
        subst env1. destruct ov; [by rewrite lookup_insert_eq | by rewrite lookup_delete_eq].
      * rewrite (lookup_insert_ne _ k j) by done.
        destruct (list_to_map rest !! j); [done|].
        subst env1. destruct ov; [by rewrite lookup_insert_ne | by rewrite lookup_delete_ne].
Qed.

Lemma visits_NoDup {V : Type} (order : gmap string V → list (string * V)) (m : gmap string V) :
  visits_each_entry_once order → NoDup (order m).*1.
Proof. intros Hord. rewrite (Hord m). apply NoDup_fst_map_to_list. Qed.

Lemma visits_list_to_map {V : Type} (order : gmap string V → list (string * V))
    (m : gmap string V) :
  visits_each_entry_once order → list_to_map (order m) = m.
Proof.
  intros Hord. rewrite <- (list_to_map_to_list m) at 2.
  apply list_to_map_proper; [by apply visits_NoDup | apply Hord].
Qed.

Lemma visits_keys {V : Type} (order : gmap string V → list (string * V))
    (m : gmap string V) (j : string) :
  visits_each_entry_once order → j ∈ (order m).*1 ↔ j ∈ dom m.
Proof.
  intros Hord. rewrite (Hord m). rewrite elem_of_dom. split.
  - intros ((k & v) & -> & Hin)%list_elem_of_fmap. apply elem_of_map_to_list in Hin. eauto.
  - intros [v Hv]. apply list_elem_of_fmap. exists (j, v). split; [done|].
    by apply elem_of_map_to_list.
Qed.

(** [withExtraEnvSet] for a non-nil map, whatever the orders of the two
    loops: [f] runs in the state whose table is [m] on top of the old table,
    its result is returned, and the table afterwards agrees with the table
    before the call on the keys of [m] and with the table [f] left on the
    others. *)
Lemma withExtraEnvSet_in_order_spec
    (order1 : gmap string string → list (string * string))
    (order2 : gmap string (option string) → list (string * option string))
    (m : gmap string string) (f : M (bytes * option error)) (st : State) :
  visits_each_entry_once order1 → visits_each_entry_once order2 →
  let ran := f (set_environ (m ∪ getenv_table st) st) in
  ∃ env',
    withExtraEnvSet_in_order order1 order2 (Some m) f st = (set_environ env' (fst ran), snd ran)
    ∧ (∀ j, env' !! j = if decide (j ∈ dom m)
                        then getenv_table st !! j
                        else getenv_table (fst ran) !! j).
Proof.
  intros Hord1 Hord2 ran.
  destruct (for_range_save_and_set (order1 m) ∅ st (visits_NoDup _ _ Hord1))
    as (env1 & oldValues & Hrun1 & Henv1 & Hold).
  assert (env1 = m ∪ getenv_table st) as ->.
  { apply map_eq. intros j. rewrite Henv1, visits_list_to_map by done.
    rewrite lookup_union. destruct (m !! j), (getenv_table st !! j); done. }
  destruct (for_range_put_back (order2 oldValues) (fst ran) (visits_NoDup _ _ Hord2))
    as (env' & Hrun2 & Henv').
  exists env'. split.
  - unfold withExtraEnvSet_in_order. run. rewrite Hrun1.
    fold ran. destruct ran as [st_f r]. simpl in *. by rewrite Hrun2.
  - intros j. rewrite Henv', visits_list_to_map by done. rewrite Hold.
    destruct (decide (j ∈ (order1 m).*1)) as [Hin|Hnin].
    + rewrite decide_True; [done|]. by apply (visits_keys order1).
    + rewrite decide_False; [by rewrite lookup_empty|].
      intros Hin. apply Hnin. by apply (visits_keys order1).
Qed.

Lemma map_to_list_visits {V : Type} :
  visits_each_entry_once (map_to_list : gmap string V → list (string * V)).
Proof. by intros m. Qed.

(** C1. [withExtraEnvSet], for every map and every operation.  With a
    non-nil map, the operation runs in a state where every key of the map
    holds the map's value (and the other keys what they held), its result,
    failure or not, is what the call returns, and after the call every key
    of the map holds what it held before the call, absent if it was absent;
    the other keys and the rest of the state are as the operation left
    them.  With a nil or an empty map the call is the operation itself. *)
Theorem withExtraEnvSet_restores (extraEnv : option (gmap string string))
    (f : M (bytes * option error)) (st : State) :
  match extraEnv with
  | None => withExtraEnvSet None f st = f st
  | Some m =>
      let st_in := set_environ (m ∪ getenv_table st) st in
      (∀ k v, m !! k = Some v → getenv_table st_in !! k = Some v)
      ∧ (∀ k, m !! k = None → getenv_table st_in !! k = getenv_table st !! k)
      ∧ (∃ env',
           withExtraEnvSet (Some m) f st = (set_environ env' (fst (f st_in)), snd (f st_in))
           ∧ (∀ k, k ∈ dom m → env' !! k = getenv_table st !! k)
           ∧ (∀ k, k ∉ dom m → env' !! k = getenv_table (fst (f st_in)) !! k))
      ∧ (m = ∅ → withExtraEnvSet (Some m) f st = f st)
  end.
Proof.
  destruct extraEnv as [m|]; [|done].
  intros st_in.
  destruct (withExtraEnvSet_in_order_spec map_to_list map_to_list m f st
              map_to_list_visits map_to_list_visits) as (env' & Hrun & Henv').
  fold st_in in Hrun, Henv'.
  split; [|split; [|split]].
  - intros k v Hk. subst st_in. rewrite getenv_table_set. by apply lookup_union_Some_l.
  - intros k Hk. subst st_in. rewrite getenv_table_set. by apply lookup_union_r.
  - exists env'. split; [exact Hrun|]. split; intros k Hk; rewrite Henv'.
    + by rewrite decide_True.
    + by rewrite decide_False.
  - intros ->. unfold withExtraEnvSet in *. rewrite Hrun.
    assert (st_in = st) as Hst.
    { subst st_in. rewrite (left_id_L ∅ (∪)). apply set_environ_id. }
    rewrite Hst in *.
    assert (env' = getenv_table (fst (f st))) as ->.
    { apply map_eq. intros j. rewrite Henv'. rewrite decide_False; [done|].
      rewrite dom_empty_L. apply not_elem_of_empty. }
    rewrite set_environ_id. by destruct (f st).
Qed.

(** The order in which Go visits the two maps does not matter. *)
Lemma withExtraEnvSet_any_order
    (order1 : gmap string string → list (string * string))
    (order2 : gmap string (option string) → list (string * option string))
    (extraEnv : option (gmap string string)) (f : M (bytes * option error)) (st : State) :
  visits_each_entry_once order1 → visits_each_entry_once order2 →
  withExtraEnvSet_in_order order1 order2 extraEnv f st = withExtraEnvSet extraEnv f st.
Proof.
  intros Hord1 Hord2. destruct extraEnv as [m|]; [|done].
  destruct (withExtraEnvSet_in_order_spec order1 order2 m f st Hord1 Hord2)
    as (env1 & -> & Henv1).
  destruct (withExtraEnvSet_in_order_spec map_to_list map_to_list m f st
              map_to_list_visits map_to_list_visits) as (env2 & Hrun & Henv2).
  unfold withExtraEnvSet. rewrite Hrun. f_equal. f_equal.
  apply map_eq. intros j. by rewrite Henv1, Henv2.
Qed.

(** ** [Restrict], step by step *)

Lemma Restrict_unfold (ctx : context_Context) (c : Config) (st : State) :
  Restrict ctx c st =
  match parse_required_version (with_defaults c) with
  | inr err => (st, (with_defaults c, Some err))
  | inl c2 =>
      let c3 := with_timeout_and_region st c2 in
      let opts := load_options st c3 in
      let '(w, (cfg, err)) := LoadDefaultConfig ctx opts (world st) in
      let st4 := after_load_call st opts w in
      let c4 := set_awsv2Config cfg c3 in
      match err with
      | Some err => (st4, (c4, Some (Errorf_w "failed to load aws config" err)))
      | None =>
          let '(st5, (c5, err)) := setupPlugins ctx c4 st4 in
          match err with
          | Some err => (st5, (c5, Some (Errorf_w "failed to setup plugins" err)))
          | None => (warn_filter_command c5 st5, (c5, None))
          end
      end
  end.
Proof.
  unfold Restrict. fold (with_defaults c).
  change (if bool_decide (RequiredVersion (with_defaults c) ≠ "") then _ else _)
    with (parse_required_version (with_defaults c)).
  destruct (parse_required_version (with_defaults c)) as [c2|err]; [|done].
  unfold with_timeout_and_region, load_options, after_load_call, warn_filter_command.
  run.
  set (c2' := match Timeout c2 with
              | None => set_Timeout (Some (mkDuration DefaultTimeout)) c2
              | Some _ => c2
              end).
  destruct (bool_decide (Region c2' = "")); run.
  - destruct (LoadDefaultConfig ctx _ (world st)) as [w [cfg [err|]]]; [done|].
    destruct (setupPlugins ctx _ _) as [st5 [c5 [err|]]]; [done|].
    destruct (bool_decide (FilterCommand c5 ≠ "")); done.
  - destruct (LoadDefaultConfig ctx _ (world st)) as [w [cfg [err|]]]; [done|].
    destruct (setupPlugins ctx _ _) as [st5 [c5 [err|]]]; [done|].
    destruct (bool_decide (FilterCommand c5 ≠ "")); done.
Qed.

(** What the steps leave alone. *)
Ltac by_cases_on_steps :=
  unfold with_defaults, parse_required_version, with_timeout_and_region;
  repeat (case_bool_decide || case_match || destruct (filepath.IsAbs _));
  simpl in *; simplify_eq; try done.

Lemma with_defaults_RequiredVersion (c : Config) :
  RequiredVersion (with_defaults c) = RequiredVersion c.
Proof. by_cases_on_steps. Qed.

Lemma with_defaults_Cluster (c : Config) :
  Cluster (with_defaults c) = if bool_decide (Cluster c = "") then DefaultClusterName else Cluster c.
Proof. by_cases_on_steps. Qed.

Lemma with_defaults_Timeout (c : Config) : Timeout (with_defaults c) = Timeout c.
Proof. by_cases_on_steps. Qed.

Lemma with_defaults_dir (c : Config) : dir (with_defaults c) = configDir c.
Proof. unfold configDir. by_cases_on_steps. Qed.

Lemma with_defaults_ServiceDefinitionPath (c : Config) :
  ServiceDefinitionPath (with_defaults c) = resolved c (ServiceDefinitionPath c).
Proof.
  unfold resolved, configDir, with_defaults.
  destruct (bool_decide (Cluster c = "")), (bool_decide (dir c = "")) eqn:Hd; simpl; rewrite ?Hd;
    simpl; repeat (case_match; simpl in *; try done); congruence.
Qed.

Lemma with_defaults_TaskDefinitionPath (c : Config) :
  TaskDefinitionPath (with_defaults c) = resolved c (TaskDefinitionPath c).
Proof.
  unfold resolved, configDir, with_defaults.
  destruct (bool_decide (Cluster c = "")), (bool_decide (dir c = "")) eqn:Hd; simpl; rewrite ?Hd;
    simpl; repeat (case_match; simpl in *; try done); congruence.
Qed.

Lemma parse_required_version_keeps {A : Type} (field : Config → A) (c c2 : Config) :
  later_steps_keep field → parse_required_version c = inl c2 → field c2 = field c.
Proof.
  intros (Hv & _ & _). unfold parse_required_version.
  repeat case_match; intros; simplify_eq; [apply Hv | done].
Qed.

(** ** Paths *)

Lemma split_on_nonempty (sep : ascii) (s : string) : split_on sep s ≠ [].
Proof.
  induction s as [|c rest IH]; simpl; [done|].
  destruct (split_on sep rest); [done|]. by case_bool_decide.
Qed.

Lemma split_on_heads (sep : ascii) (s : string) :
  Forall (separator_free_head sep) (split_on sep s).
Proof.
  induction s as [|c rest IH]; simpl.
  - by repeat constructor.
  - pose proof (split_on_nonempty sep rest) as Hne.
    destruct (split_on sep rest) as [|e es]; [done|].
    apply Forall_cons in IH as [He Hes].
    case_bool_decide; repeat constructor; done.
Qed.

Lemma clean_step_written (rooted : bool) (out : list string) (e : string) :
  Forall written_element out → separator_free_head filepath.Separator e →
  Forall written_element (filepath.clean_step rooted out e).
Proof.
  intros Hout He. unfold filepath.clean_step.
  repeat case_bool_decide; subst; try done.
  - destruct out as [|top below]; [destruct rooted; repeat constructor; done|].
    apply Forall_cons in Hout as [Htop Hbelow].
    case_bool_decide; [|done]. subst. repeat constructor; done.
  - constructor; [|done]. split; [done|].
    destruct e as [|c e]; [done|]. simpl in *.
    unfold filepath.IsPathSeparator. by apply bool_decide_eq_false_2.
Qed.

Lemma clean_fold_written (rooted : bool) (elems out : list string) :
  Forall (separator_free_head filepath.Separator) elems → Forall written_element out →
  Forall written_element (fold_left (filepath.clean_step rooted) elems out).
Proof.
  revert out. induction elems as [|e elems IH]; intros out Helems Hout; simpl; [done|].
  apply Forall_cons in Helems as [He Helems].
  apply IH; [done|]. by apply clean_step_written.
Qed.

Lemma join_with_written (sep : string) (h : string) (t : list string) :
  written_element h → filepath.IsAbs (join_with sep (h :: t)) = false.
Proof.
  intros [Hne Habs]. destruct h as [|c h]; [done|].
  simpl. by destruct t.
Qed.

(** [Clean] keeps a path rooted or not, as it was. *)
Lemma Clean_IsAbs (path : string) :
  path ≠ "" → filepath.IsAbs (filepath.Clean path) = filepath.IsAbs path.
Proof.
  intros Hne. unfold filepath.Clean. rewrite bool_decide_eq_false_2 by done.
  destruct (filepath.IsAbs path) eqn:Habs; [done|].
  pose proof (clean_fold_written false (filepath.elements path) []
                (split_on_heads _ _) (Forall_nil_2 _)) as Hout.
  apply Forall_rev in Hout.
  destruct (rev (fold_left (filepath.clean_step false) (filepath.elements path) []))
    as [|h t]; [done|].
  rewrite bool_decide_eq_false_2 by done.
  apply Forall_cons in Hout as [Hh _]. by apply join_with_written.
Qed.

(** A path joined to a directory is absolute exactly when the directory
    is. *)
Lemma Join_IsAbs (a b : string) :
  a ≠ "" → filepath.IsAbs (filepath.Join a b) = filepath.IsAbs a.
Proof.
  intros Hne. unfold filepath.Join. rewrite bool_decide_eq_true_2 by done.
  destruct a as [|c a]; [done|]. by rewrite Clean_IsAbs.
Qed.

Lemma configDir_nonempty (c : Config) : configDir c ≠ "".
Proof. unfold configDir. by case_bool_decide. Qed.

(** ** The plugin pipeline *)

Lemma fold_left_append_each {A B : Type} (f : A → B) (l : list A) (acc : list B) :
  fold_left (λ acc x, acc ++ [f x]) l acc = acc ++ (f <$> l).
Proof.
  revert acc. induction l as [|x l IH]; intros acc; simpl.
  - by rewrite app_nil_r.
  - rewrite IH. by rewrite <- app_assoc.
Qed.

Lemma setupPlugins_pipeline (ctx : context_Context) (c : Config) :
  setupPlugins ctx c = setupPlugins_loop ctx (pipeline c) c.
Proof. unfold setupPlugins, pipeline. by rewrite fold_left_append_each. Qed.

(** The loop of [setupPlugins] is such a run, and each invocation is one
    more call in the history. *)
Lemma setupPlugins_loop_run (ctx : context_Context) (plugins : list ConfigPlugin) :
  ∀ (c : Config) (st : State),
    ∃ invoked st' c' err,
      setupPlugins_loop ctx plugins c st = (st', (c', err))
      ∧ pipeline_run ctx plugins c (world st) invoked c' (world st') err
      ∧ calls st' = calls st ++ (CallSetup <$> invoked)
      ∧ logs st' = logs st
      ∧ awsv2ConfigLoadOptionsFunc st' = awsv2ConfigLoadOptionsFunc st.
Proof.
  induction plugins as [|p rest IH]; intros c st.
  - exists [], st, c, None. simpl. rewrite app_nil_r. repeat split; try done. constructor.
  - simpl. run. destruct (Setup p ctx c (world st)) as [w1 [c1 [err|]]] eqn:Hsetup.
    + eexists [p], _, c1, (Some err). repeat split; try done. by constructor.
    + destruct (IH c1 (mkState w1 (logs st) (calls st ++ [CallSetup p])
                         (awsv2ConfigLoadOptionsFunc st)))
        as (invoked & st' & c' & err & Hrun & Hpipe & Hcalls & Hlogs & Hopts).
      exists (p :: invoked), st', c', err. rewrite Hrun. repeat split; try done.
      * by eapply run_success.
      * rewrite Hcalls. simpl. by rewrite <- app_assoc.
Qed.

(** What a run says: the plugins invoked are the first plugins of the list,
    in its order; without an error they are all of them, and with an error
    the failing plugin is the last one invoked. *)
Lemma pipeline_run_prefix (ctx : context_Context) plugins c w invoked c' w' err :
  pipeline_run ctx plugins c w invoked c' w' err →
  invoked `prefix_of` plugins
  ∧ match err with
    | None => invoked = plugins
    | Some _ => ∃ before p, invoked = before ++ [p]
    end.
Proof.
  induction 1 as [c w|p rest c c' w w' err Hsetup
                  |p rest invoked c c1 c' w w1 w' err Hsetup Hrun [IHp IHe]].
  - split; [done|done].
  - split; [by exists rest | by exists [], p].
  - split; [by apply prefix_cons|].
    destruct err as [err|]; [|by rewrite IHe].
    destruct IHe as (before & q & ->). by exists (p :: before), q.
Qed.

Lemma pipeline_run_keeps {A : Type} (field : Config → A) ctx plugins c w invoked c' w' err :
  Setup_keeps field →
  pipeline_run ctx plugins c w invoked c' w' err → field c' = field c.
Proof.
  intros Hkeep. induction 1 as [c w|p rest c c' w w' err Hsetup
                  |p rest invoked c c1 c' w w1 w' err Hsetup Hrun IH].
  - done.
  - specialize (Hkeep p ctx c w). by rewrite Hsetup in Hkeep.
  - rewrite IH. specialize (Hkeep p ctx c w). by rewrite Hsetup in Hkeep.
Qed.

Lemma setupPlugins_keeps {A : Type} (field : Config → A) ctx c st :
  Setup_keeps field → field (fst (snd (setupPlugins ctx c st))) = field c.
Proof.
  intros Hkeep. rewrite setupPlugins_pipeline.
  destruct (setupPlugins_loop_run ctx (pipeline c) c st)
    as (invoked & st' & c' & err & -> & Hpipe & _).
  simpl. by eapply pipeline_run_keeps.
Qed.

(** A field that [Restrict] assigns only among its defaults, if at all,
    holds after [Restrict] what it held after the defaults, when no plugin
    changes it. *)
Lemma Restrict_keeps {A : Type} (field : Config → A) ctx c st :
  later_steps_keep field →
  (∀ v c, field (set_Timeout v c) = field c) →
  Setup_keeps field →
  field (fst (snd (Restrict ctx c st))) = field (with_defaults c).
Proof.
  intros Hlater Htimeout Hkeep. rewrite Restrict_unfold.
  destruct (parse_required_version (with_defaults c)) as [c2|err] eqn:Hparse; [|done].
  pose proof (parse_required_version_keeps field _ _ Hlater Hparse) as <-.
  destruct Hlater as (Hv & Hr & Ha).
  assert (field (with_timeout_and_region st c2) = field c2) as Hc3.
  { unfold with_timeout_and_region. repeat case_match; rewrite ?Hr, ?Htimeout; done. }
  simpl. destruct (LoadDefaultConfig ctx _ (world st)) as [w [cfg [err|]]]; simpl.
  { by rewrite Ha. }
  pose proof (setupPlugins_keeps field ctx
                (set_awsv2Config cfg (with_timeout_and_region st c2))
                (after_load_call st (load_options st (with_timeout_and_region st c2)) w) Hkeep)
    as Hplug.
  destruct (setupPlugins ctx _ _) as [st5 [c5 [err|]]]; simpl in *; by rewrite Hplug, Ha.
Qed.

(** ** [Restrict]: defaults and paths *)

Lemma DefaultTimeout_is_ten_minutes : DefaultTimeout = 600000000000%Z.
Proof. reflexivity. Qed.

(** C7. After a [Restrict] that returns no error, in which no plugin's
    [Setup] assigns [Cluster] or [Timeout]: [Cluster] is not empty, it is
    ["default"] when it was empty and unchanged otherwise; [Timeout] is not
    nil, it is ten minutes when it was nil and unchanged otherwise. *)
Theorem Restrict_defaults_Cluster_Timeout
    (ctx : context_Context) (c c' : Config) (st st' : State) :
  Setup_keeps Cluster → Setup_keeps Timeout →
  Restrict ctx c st = (st', (c', None)) →
  Cluster c' ≠ ""
  ∧ (Cluster c = "" → Cluster c' = "default")
  ∧ (Cluster c ≠ "" → Cluster c' = Cluster c)
  ∧ Timeout c' ≠ None
  ∧ (Timeout c = None → Timeout c' = Some (mkDuration (10 * time_Minute)))
  ∧ (∀ d, Timeout c = Some d → Timeout c' = Some d).
Proof.
  intros HkeepC HkeepT Hrun.
  assert (Cluster c' = Cluster (with_defaults c)) as HC.
  { pose proof (Restrict_keeps Cluster ctx c st) as H. rewrite Hrun in H. by apply H. }
  rewrite with_defaults_Cluster in HC.
  assert (Timeout c' = match Timeout c with
                       | None => Some (mkDuration DefaultTimeout)
                       | Some d => Some d
                       end) as HT.
  { rewrite Restrict_unfold in Hrun.
    destruct (parse_required_version (with_defaults c)) as [c2|err] eqn:Hparse; [|done].
    assert (Timeout c2 = Timeout c) as Hc2.
    { rewrite <- (with_defaults_Timeout c).
      by apply (parse_required_version_keeps Timeout _ _). }
    assert (Timeout (with_timeout_and_region st c2)
            = match Timeout c with
              | None => Some (mkDuration DefaultTimeout)
              | Some d => Some d
              end) as Hc3.
    { unfold with_timeout_and_region. rewrite <- Hc2.
      destruct (Timeout c2) eqn:E; destruct (bool_decide (Region _ = "")); simpl; by rewrite ?E. }
    simpl in Hrun. destruct (LoadDefaultConfig ctx _ (world st)) as [w [cfg [err|]]]; [done|].
    pose proof (setupPlugins_keeps Timeout ctx
                  (set_awsv2Config cfg (with_timeout_and_region st c2))
                  (after_load_call st (load_options st (with_timeout_and_region st c2)) w)
                  HkeepT) as Hplug.
    destruct (setupPlugins ctx _ _) as [st5 [c5 [err|]]]; [done|].
    simpl in Hplug. simplify_eq. by rewrite Hplug. }
  split; [|split; [|split; [|split; [|split]]]].
  - rewrite HC. by case_bool_decide.
  - intros E. rewrite HC. by rewrite bool_decide_eq_true_2.
  - intros E. rewrite HC. by rewrite bool_decide_eq_false_2.
  - rewrite HT. by destruct (Timeout c).
  - intros E. by rewrite HT, E.
  - intros d E. by rewrite HT, E.
Qed.

Lemma Restrict_paths (ctx : context_Context) (c : Config) (st : State) :
  Setup_keeps ServiceDefinitionPath → Setup_keeps TaskDefinitionPath →
  ServiceDefinitionPath (fst (snd (Restrict ctx c st))) = resolved c (ServiceDefinitionPath c)
  ∧ TaskDefinitionPath (fst (snd (Restrict ctx c st))) = resolved c (TaskDefinitionPath c).
Proof.
  intros Hs Ht. split.
  - rewrite (Restrict_keeps ServiceDefinitionPath) by done.
    apply with_defaults_ServiceDefinitionPath.
  - rewrite (Restrict_keeps TaskDefinitionPath) by done.
    apply with_defaults_TaskDefinitionPath.
Qed.

Lemma resolved_relative (c : Config) (p : string) :
  p ≠ "" → filepath.IsAbs p = false →
  resolved c p = filepath.Join (configDir c) p
  ∧ filepath.IsAbs (resolved c p) = filepath.IsAbs (configDir c).
Proof.
  intros Hne Hrel. unfold resolved.
  rewrite bool_decide_eq_true_2, Hrel by done. simpl.
  split; [done|]. apply Join_IsAbs, configDir_nonempty.
Qed.

Lemma resolved_absolute (c : Config) (p : string) :
  filepath.IsAbs p = true → resolved c p = p.
Proof. intros Habs. unfold resolved. rewrite Habs. by rewrite andb_false_r. Qed.

(** C5, as the code has it.  After [Restrict], in which no plugin's [Setup]
    assigns the two paths: a non-empty relative [service_definition] or
    [task_definition] path equals [Join] of the configuration directory
    (["."] when [dir] is empty) and the original path, and it is absolute
    exactly when that directory is absolute; an absolute path is unchanged,
    also by a second [Restrict]. *)
Theorem Restrict_resolves_paths (ctx : context_Context) (c : Config) (st : State) :
  Setup_keeps ServiceDefinitionPath → Setup_keeps TaskDefinitionPath →
  let c' := fst (snd (Restrict ctx c st)) in
  (ServiceDefinitionPath c ≠ "" → filepath.IsAbs (ServiceDefinitionPath c) = false →
     ServiceDefinitionPath c' = filepath.Join (configDir c) (ServiceDefinitionPath c)
     ∧ filepath.IsAbs (ServiceDefinitionPath c') = filepath.IsAbs (configDir c))
  ∧ (TaskDefinitionPath c ≠ "" → filepath.IsAbs (TaskDefinitionPath c) = false →
     TaskDefinitionPath c' = filepath.Join (configDir c) (TaskDefinitionPath c)
     ∧ filepath.IsAbs (TaskDefinitionPath c') = filepath.IsAbs (configDir c))
  ∧ (filepath.IsAbs (ServiceDefinitionPath c) = true →
     ServiceDefinitionPath c' = ServiceDefinitionPath c
     ∧ ∀ ctx2 st2, ServiceDefinitionPath (fst (snd (Restrict ctx2 c' st2)))
                   = ServiceDefinitionPath c')
  ∧ (filepath.IsAbs (TaskDefinitionPath c) = true →
     TaskDefinitionPath c' = TaskDefinitionPath c
     ∧ ∀ ctx2 st2, TaskDefinitionPath (fst (snd (Restrict ctx2 c' st2)))
                   = TaskDefinitionPath c').
Proof.
  intros Hs Ht c'.
  destruct (Restrict_paths ctx c st Hs Ht) as [HS HT]. fold c' in HS, HT.
  split; [|split; [|split]].
  - intros Hne Hrel. rewrite HS. by apply resolved_relative.
  - intros Hne Hrel. rewrite HT. by apply resolved_relative.
  - intros Habs. rewrite HS, resolved_absolute by done. split; [done|].
    intros ctx2 st2. destruct (Restrict_paths ctx2 c' st2 Hs Ht) as [-> _].
    rewrite HS, (resolved_absolute c) by done. by apply resolved_absolute.
  - intros Habs. rewrite HT, resolved_absolute by done. split; [done|].
    intros ctx2 st2. destruct (Restrict_paths ctx2 c' st2 Hs Ht) as [_ ->].
    rewrite HT, (resolved_absolute c) by done. by apply resolved_absolute.
Qed.

(** ** The plugin pipeline, as [Restrict] runs it *)

Lemma pipeline_run_failure (ctx : context_Context) plugins c w invoked c' w' err :
  pipeline_run ctx plugins c w invoked c' w' (Some err) →
  ∃ before p c0 w0,
    invoked = before ++ [p] ∧ Setup p ctx c0 w0 = (w', (c', Some err)).
Proof.
  remember (Some err) as result eqn:E.
  induction 1 as [c w|p rest c c' w w' err' Hsetup
                  |p rest invoked c c1 c' w w1 w' err' Hsetup Hrun IH].
  - done.
  - simplify_eq. by exists [], p, c, w.
  - destruct (IH E) as (before & q & c0 & w0 & -> & Hq).
    by exists (p :: before), q, c0, w0.
Qed.

Lemma Restrict_plugin_failure (ctx : context_Context) (c c2 : Config) (st : State)
    (w : World) (cfg : aws_Config) (st5 : State) (c5 : Config) (err : error) :
  parse_required_version (with_defaults c) = inl c2 →
  let c3 := with_timeout_and_region st c2 in
  LoadDefaultConfig ctx (load_options st c3) (world st) = (w, (cfg, None)) →
  setupPlugins ctx (set_awsv2Config cfg c3) (after_load_call st (load_options st c3) w)
  = (st5, (c5, Some err)) →
  Restrict ctx c st = (st5, (c5, Some ("failed to setup plugins: " +:+ err))).
Proof.
  intros Hparse c3 Hload Hplug. rewrite Restrict_unfold, Hparse. simpl.
  fold c3. rewrite Hload, Hplug. done.
Qed.

(** C9, as the code has it.  [setupPlugins] runs [Setup] over the plugins
    built from the default names followed by the declared plugins, in that
    order, one after the other, each on the configuration and the world the
    one before it left; with no error all of them have run; at the first
    error the run stops, the failing plugin is the last one invoked, and the
    error returned is the one its [Setup] returned, unchanged.  [Restrict]
    returns that error behind ["failed to setup plugins: "].  Nothing names
    the plugin unless the error of [Setup] does. *)
Theorem setupPlugins_runs_in_order (ctx : context_Context) (c : Config) (st : State) :
  pipeline c = ((λ name, mkConfigPlugin name None) <$> defaultPluginNames) ++ Plugins c
  ∧ ∃ invoked st' c' err,
      setupPlugins ctx c st = (st', (c', err))
      ∧ pipeline_run ctx (pipeline c) c (world st) invoked c' (world st') err
      ∧ calls st' = calls st ++ (CallSetup <$> invoked)
      ∧ invoked `prefix_of` pipeline c
      ∧ match err with
        | None => invoked = pipeline c
        | Some e =>
            (∃ before p c0 w0,
               invoked = before ++ [p] ∧ Setup p ctx c0 w0 = (world st', (c', Some e)))
            ∧ (∀ c_in c2 st_in w cfg,
                 parse_required_version (with_defaults c_in) = inl c2 →
                 LoadDefaultConfig ctx (load_options st_in (with_timeout_and_region st_in c2))
                   (world st_in) = (w, (cfg, None)) →
                 c = set_awsv2Config cfg (with_timeout_and_region st_in c2) →
                 st = after_load_call st_in
                        (load_options st_in (with_timeout_and_region st_in c2)) w →
                 Restrict ctx c_in st_in = (st', (c', Some ("failed to setup plugins: " +:+ e))))
        end.
Proof.
  split; [done|].
  rewrite setupPlugins_pipeline.
  destruct (setupPlugins_loop_run ctx (pipeline c) c st)
    as (invoked & st' & c' & err & Hrun & Hpipe & Hcalls & _).
  exists invoked, st', c', err.
  destruct (pipeline_run_prefix _ _ _ _ _ _ _ _ Hpipe) as [Hprefix Hall].
  split; [done|]. split; [done|]. split; [done|]. split; [done|].
  destruct err as [e|]; [|done].
  split; [by eapply pipeline_run_failure|].
  intros c_in c2 st_in w cfg Hparse Hload -> ->.
  eapply Restrict_plugin_failure; [done..|].
  by rewrite setupPlugins_pipeline.
Qed.

(** ** [Load] *)

Lemma Load_document_yaml (l : configLoader) (path : string) (st : State) :
  is_yaml (filepath.Ext path) = true →
  Load_document l path st =
  let '(w, (b, err)) := Loader_ReadWithEnv (Loader l) path (world st) in
  let st1 := after_call st (CallReadWithEnv path) w in
  match err with
  | Some err => (st1, inr err)
  | None =>
      match unmarshalYAML b (new_Config path) path with
      | (conf, Some err) => (st1, inr (Errorf_w "failed to parse yaml" err))
      | (conf, None) => (st1, inl conf)
      end
  end.
Proof.
  intros Hext. unfold Load_document, is_yaml in *. rewrite Hext.
  unfold ReadWithEnv, withExtraEnvSet, withExtraEnvSet_in_order, after_call. run.
  destruct (Loader_ReadWithEnv (Loader l) path (world st)) as [w [b [err|]]]; [done|].
  by destruct (unmarshalYAML b (new_Config path) path) as [conf [err|]].
Qed.

Lemma Load_document_json (l : configLoader) (path : string) (st : State) :
  is_json (filepath.Ext path) = true →
  Load_document l path st =
  let '(w, (jsonStr, err)) := VM_EvaluateFile (VM l) path (world st) in
  let st1 := after_call st (CallEvaluateFile path) w in
  match err with
  | Some err => (st1, inr (Errorf_w "failed to evaluate jsonnet file" err))
  | None =>
      let '(w', (b, err)) := Loader_ReadWithEnvBytes (Loader l) jsonStr w in
      let st2 := after_call st1 (CallReadWithEnvBytes jsonStr) w' in
      match err with
      | Some err => (st2, inr (Errorf_w "failed to read template file" err))
      | None =>
          match unmarshalJSON b (new_Config path) path with
          | (conf, Some err) => (st2, inr (Errorf_w "failed to unmarshal json" err))
          | (conf, None) => (st2, inl conf)
          end
      end
  end.
Proof.
  intros Hext. unfold is_json in Hext. apply andb_true_iff in Hext as [Hny Hj].
  apply negb_true_iff in Hny. unfold Load_document, is_yaml in *. rewrite Hny, Hj.
  unfold ReadWithEnvBytes, withExtraEnvSet, withExtraEnvSet_in_order, after_call. run.
  destruct (VM_EvaluateFile (VM l) path (world st)) as [w [jsonStr [err|]]]; [done|].
  simpl. destruct (Loader_ReadWithEnvBytes (Loader l) jsonStr w) as [w' [b [err|]]]; [done|].
  by destruct (unmarshalJSON b (new_Config path) path) as [conf [err|]].
Qed.

Lemma Load_document_unsupported (l : configLoader) (path : string) (st : State) :
  is_yaml (filepath.Ext path) = false → is_json (filepath.Ext path) = false →
  Load_document l path st
  = (st, inr ("unsupported config file extension: " +:+ filepath.Ext path)).
Proof.
  intros Hny Hnj. unfold is_json in Hnj. rewrite Hny in Hnj. simpl in Hnj.
  unfold Load_document, is_yaml in *. by rewrite Hny, Hnj.
Qed.

Lemma Load_unfold (l : configLoader) (ctx : context_Context) (path version : string)
    (st : State) :
  Load l ctx path version st =
  match Load_document l path st with
  | (st1, inr err) => (st1, (l, (None, Some err)))
  | (st1, inl conf) =>
      match Restrict ctx (set_dir (filepath.Dir path) conf) st1 with
      | (st2, (conf', Some err)) => (st2, (l, (None, Some err)))
      | (st2, (conf', None)) =>
          match ValidateVersion conf' version st2 with
          | (st3, Some err) => (st3, (l, (None, Some err)))
          | (st3, None) => (st3, (with_registered conf' l, (Some conf', None)))
          end
      end
  end.
Proof.
  unfold Load, mbind, M_bind, mret, M_ret.
  destruct (Load_document l path st) as [st1 [conf|err]]; [|done].
  destruct (Restrict ctx _ st1) as [st2 [conf' [err|]]]; [done|].
  by destruct (ValidateVersion conf' version st2) as [st3 [err|]].
Qed.

Lemma parse_required_version_error (c : Config) (e : error) :
  parse_required_version (with_defaults c) = inr e ↔
  RequiredVersion c ≠ ""
  ∧ ∃ err, NewConstraint (RequiredVersion c) = inr err
           ∧ e = "required_version has invalid format: " +:+ err.
Proof.
  unfold parse_required_version. rewrite with_defaults_RequiredVersion.
  case_bool_decide as Hrv.
  - destruct (NewConstraint (RequiredVersion c)) as [cs|err].
    + split; [done|]. by intros (_ & err & ? & _).
    + split.
      * intros [= <-]. split; [done|]. by exists err.
      * intros (_ & err' & [= <-] & ->). done.
  - split; [done|]. by intros [? _].
Qed.

(** [Restrict] returns an error exactly in those ways. *)
Lemma Restrict_error_iff (ctx : context_Context) (c : Config) (st : State) (e : error) :
  snd (snd (Restrict ctx c st)) = Some e ↔ Restrict_failure ctx c st e.
Proof.
  rewrite Restrict_unfold. split.
  - destruct (parse_required_version (with_defaults c)) as [c2|err] eqn:Hparse.
    + simpl.
      destruct (LoadDefaultConfig ctx _ (world st)) as [w [cfg [err|]]] eqn:Hload; simpl.
      { intros [= <-]. by eapply credential_resolution_error. }
      destruct (setupPlugins ctx _ _) as [st5 [c5 [err|]]] eqn:Hplug; simpl; [|done].
      intros [= <-]. by eapply plugin_setup_error.
    + simpl. intros [= <-].
      apply parse_required_version_error in Hparse as (Hne & err' & Hc & ->).
      by constructor.
  - intros [err Hne Hc|c2 w cfg err Hparse Hload|c2 w cfg st5 c5 err Hparse Hload Hplug].
    + assert (parse_required_version (with_defaults c)
              = inr ("required_version has invalid format: " +:+ err)) as ->.
      { apply parse_required_version_error. split; [done|]. by exists err. }
      done.
    + rewrite Hparse. simpl. by rewrite Hload.
    + rewrite Hparse. simpl. by rewrite Hload, Hplug.
Qed.

Lemma is_yaml_is_json_exclusive (ext : string) : is_yaml ext = true → is_json ext = false.
Proof. intros H. unfold is_json. by rewrite H. Qed.

(** A failure of one of the document stages is an error of
    [Load_document], and the other way round. *)
Lemma Load_document_error_iff (l : configLoader) (ctx : context_Context)
    (path version : string) (st : State) (e : error) :
  snd (Load_document l path st) = inr e →
  Load_failure l ctx path version st e.
Proof.
  destruct (is_yaml (filepath.Ext path)) eqn:Hy.
  - rewrite Load_document_yaml by done.
    destruct (Loader_ReadWithEnv (Loader l) path (world st)) as [w [b [err|]]] eqn:Hread; simpl.
    { intros [= <-]. by eapply yaml_read_error. }
    destruct (unmarshalYAML b (new_Config path) path) as [conf [err|]] eqn:Hdec; simpl; [|done].
    intros [= <-]. by eapply yaml_decode_error.
  - destruct (is_json (filepath.Ext path)) eqn:Hj.
    + rewrite Load_document_json by done.
      destruct (VM_EvaluateFile (VM l) path (world st)) as [w [jsonStr [err|]]] eqn:Heval; simpl.
      { intros [= <-]. by eapply evaluation_error. }
      destruct (Loader_ReadWithEnvBytes (Loader l) jsonStr w) as [w' [b [err|]]] eqn:Hread; simpl.
      { intros [= <-]. by eapply template_read_error. }
      destruct (unmarshalJSON b (new_Config path) path) as [conf [err|]] eqn:Hdec; simpl; [|done].
      intros [= <-]. by eapply json_decode_error.
    + rewrite Load_document_unsupported by done. simpl.
      intros [= <-]. by constructor.
Qed.

Lemma Load_failure_result (l : configLoader) (ctx : context_Context) (path version : string)
    (st : State) (e : error) :
  Load_failure l ctx path version st e →
  snd (snd (Load l ctx path version st)) = (None, Some e).
Proof.
  rewrite Load_unfold.
  intros [Hny Hnj|w b err Hy Hread|w b conf err Hy Hread Hdec
         |w jsonStr err Hj Heval|w w' jsonStr b err Hj Heval Hread
         |w w' jsonStr b conf err Hj Heval Hread Hdec
         |st1 conf err Hdoc Hfail|st1 st2 st3 conf conf' err Hdoc Hres Hver].
  - by rewrite Load_document_unsupported.
  - rewrite Load_document_yaml, Hread by done. done.
  - rewrite Load_document_yaml, Hread by done. cbv beta iota zeta. by rewrite Hdec.
  - rewrite Load_document_json, Heval by done. done.
  - rewrite Load_document_json, Heval by done. cbv beta iota zeta. by rewrite Hread.
  - rewrite Load_document_json, Heval by done. cbv beta iota zeta. rewrite Hread.
    cbv beta iota zeta. by rewrite Hdec.
  - rewrite Hdoc. apply Restrict_error_iff in Hfail.
    destruct (Restrict ctx _ st1) as [st2 [conf' [err'|]]]; simpl in *; by simplify_eq.
  - by rewrite Hdoc, Hres, Hver.
Qed.

(** C3. [Load] returns either a [Config] and a nil error, or a nil
    [Config] and an error.  Whenever a stage fails (unsupported extension,
    read, template evaluation, decode, constraint parsing, credential
    resolution, plugin setup, version validation) it returns nil and that
    stage's error; and it returns an error only when a stage fails. *)
Theorem Load_all_or_nothing (l : configLoader) (ctx : context_Context)
    (path version : string) (st : State) :
  let result := snd (snd (Load l ctx path version st)) in
  ((∃ conf, result = (Some conf, None)) ∨ (∃ err, result = (None, Some err)))
  ∧ (∀ err, Load_failure l ctx path version st err → result = (None, Some err))
  ∧ (∀ err, snd result = Some err → Load_failure l ctx path version st err).
Proof.
  intros result. split; [|split].
  - subst result. rewrite Load_unfold.
    destruct (Load_document l path st) as [st1 [conf|err]]; [|right; by eexists].
    destruct (Restrict ctx _ st1) as [st2 [conf' [err|]]]; [right; by eexists|].
    destruct (ValidateVersion conf' version st2) as [st3 [err|]];
      [right; by eexists | left; by eexists].
  - intros err. apply Load_failure_result.
  - subst result. intros err. rewrite Load_unfold.
    destruct (Load_document l path st) as [st1 [conf|e]] eqn:Hdoc.
    2:{ simpl. intros [= <-]. apply Load_document_error_iff. by rewrite Hdoc. }
    destruct (Restrict ctx _ st1) as [st2 [conf' [e|]]] eqn:Hres.
    { simpl. intros [= <-]. eapply normalization_error; [done|].
      apply Restrict_error_iff. by rewrite Hres. }
    destruct (ValidateVersion conf' version st2) as [st3 [e|]] eqn:Hver; simpl; [|done].
    intros [= <-]. by eapply version_mismatch_error.
Qed.

(** C8. With an extension other than [.yml], [.yaml], [.json] and
    [.jsonnet], [Load] returns nil and the unsupported-extension error, and
    the state and the loader are as they were: nothing was called, read,
    logged or changed. *)
Theorem Load_unsupported_extension (l : configLoader) (ctx : context_Context)
    (path version : string) (st : State) :
  filepath.Ext path ≠ ymlExt → filepath.Ext path ≠ yamlExt →
  filepath.Ext path ≠ jsonExt → filepath.Ext path ≠ jsonnetExt →
  Load l ctx path version st
  = (st, (l, (None, Some ("unsupported config file extension: " +:+ filepath.Ext path)))).
Proof.
  intros H1 H2 H3 H4. rewrite Load_unfold, Load_document_unsupported; [done| |].
  - unfold is_yaml. by rewrite !bool_decide_eq_false_2.
  - unfold is_json. rewrite !(bool_decide_eq_false_2 (_ = jsonExt)),
      !(bool_decide_eq_false_2 (_ = jsonnetExt)) by done. apply andb_false_r.
Qed.

(** [Load_document] invokes no plugin. *)
Lemma Load_document_no_Setup (l : configLoader) (path : string) (st : State)
    (p : ConfigPlugin) :
  CallSetup p ∈ calls (fst (Load_document l path st)) → CallSetup p ∈ calls st.
Proof.
  destruct (is_yaml (filepath.Ext path)) eqn:Hy.
  - rewrite Load_document_yaml by done.
    destruct (Loader_ReadWithEnv (Loader l) path (world st)) as [w [b [err|]]]; simpl.
    { intros [?|[=]%list_elem_of_singleton]%elem_of_app. done. }
    destruct (unmarshalYAML b (new_Config path) path) as [conf [err|]]; simpl;
      intros [?|[=]%list_elem_of_singleton]%elem_of_app; done.
  - destruct (is_json (filepath.Ext path)) eqn:Hj.
    + rewrite Load_document_json by done.
      destruct (VM_EvaluateFile (VM l) path (world st)) as [w [jsonStr [err|]]]; simpl.
      { intros [?|[=]%list_elem_of_singleton]%elem_of_app. done. }
      destruct (Loader_ReadWithEnvBytes (Loader l) jsonStr w) as [w' [b [err|]]]; simpl.
      { intros [[?|[=]%list_elem_of_singleton]%elem_of_app|[=]%list_elem_of_singleton]%elem_of_app.
        done. }
      destruct (unmarshalJSON b (new_Config path) path) as [conf [err|]]; simpl;
        intros [[?|[=]%list_elem_of_singleton]%elem_of_app|[=]%list_elem_of_singleton]%elem_of_app;
        done.
    + by rewrite Load_document_unsupported.
Qed.

(** C4. When the document decodes to a configuration whose
    [required_version] is not empty and does not parse as a constraint,
    [Load] returns nil and the constraint-syntax error, in the state the
    reading of the document left: no [LoadDefaultConfig], no [Setup] has
    been called, and every [Setup] call in the history was there before
    [Load]. *)
Theorem Load_invalid_required_version (l : configLoader) (ctx : context_Context)
    (path version : string) (st st1 : State) (conf : Config) (err : error) :
  Load_document l path st = (st1, inl conf) →
  RequiredVersion conf ≠ "" →
  NewConstraint (RequiredVersion conf) = inr err →
  Load l ctx path version st
  = (st1, (l, (None, Some ("required_version has invalid format: " +:+ err))))
  ∧ (∀ p, CallSetup p ∈ calls st1 → CallSetup p ∈ calls st).
Proof.
  intros Hdoc Hne Hparse. split.
  - rewrite Load_unfold, Hdoc, Restrict_unfold.
    assert (parse_required_version (with_defaults (set_dir (filepath.Dir path) conf))
            = inr ("required_version has invalid format: " +:+ err)) as ->.
    { apply parse_required_version_error. split; [done|]. by exists err. }
    done.
  - intros p Hp. apply (Load_document_no_Setup l path st p). by rewrite Hdoc.
Qed.

(** ** The environment during [Load] *)

Lemma pipeline_run_environ (ctx : context_Context) plugins c w invoked c' w' err :
  (∀ p ctx c w, environ (fst (Setup p ctx c w)) = environ w) →
  pipeline_run ctx plugins c w invoked c' w' err → environ w' = environ w.
Proof.
  intros Hkeep. induction 1 as [c w|p rest c c' w w' err Hsetup
                  |p rest invoked c c1 c' w w1 w' err Hsetup Hrun IH].
  - done.
  - specialize (Hkeep p ctx c w). by rewrite Hsetup in Hkeep.
  - rewrite IH. specialize (Hkeep p ctx c w). by rewrite Hsetup in Hkeep.
Qed.

Lemma Load_document_environ (l : configLoader) (path : string) (st : State) :
  collaborators_leave_environ →
  getenv_table (fst (Load_document l path st)) = getenv_table st.
Proof.
  intros (_ & Hread & Hbytes & Heval & _). unfold getenv_table.
  destruct (is_yaml (filepath.Ext path)) eqn:Hy.
  - rewrite Load_document_yaml by done. specialize (Hread (Loader l) path (world st)).
    destruct (Loader_ReadWithEnv (Loader l) path (world st)) as [w [b [err|]]]; [done|].
    by destruct (unmarshalYAML b (new_Config path) path) as [conf [err|]].
  - destruct (is_json (filepath.Ext path)) eqn:Hj.
    + rewrite Load_document_json by done. specialize (Heval (VM l) path (world st)).
      destruct (VM_EvaluateFile (VM l) path (world st)) as [w [jsonStr [err|]]]; [done|].
      simpl in *. specialize (Hbytes (Loader l) jsonStr w).
      destruct (Loader_ReadWithEnvBytes (Loader l) jsonStr w) as [w' [b [err|]]];
        simpl in *; [congruence|].
      destruct (unmarshalJSON b (new_Config path) path) as [conf [err|]]; simpl; congruence.
    + by rewrite Load_document_unsupported.
Qed.

Lemma Restrict_environ (ctx : context_Context) (c : Config) (st : State) :
  collaborators_leave_environ →
  getenv_table (fst (Restrict ctx c st)) = getenv_table st.
Proof.
  intros (Hload & _ & _ & _ & Hsetup). unfold getenv_table. rewrite Restrict_unfold.
  destruct (parse_required_version (with_defaults c)) as [c2|err]; [|done].
  simpl. set (c3 := with_timeout_and_region st c2).
  specialize (Hload ctx (load_options st c3) (world st)).
  destruct (LoadDefaultConfig ctx _ (world st)) as [w [cfg [err|]]]; [done|].
  simpl in Hload. rewrite setupPlugins_pipeline.
  destruct (setupPlugins_loop_run ctx (pipeline (set_awsv2Config cfg c3))
              (set_awsv2Config cfg c3) (after_load_call st (load_options st c3) w))
    as (invoked & st5 & c5 & err & -> & Hpipe & _).
  apply (pipeline_run_environ ctx) in Hpipe; [|done]. simpl in Hpipe.
  destruct err as [err|]; simpl; [congruence|].
  unfold warn_filter_command. case_bool_decide; simpl; congruence.
Qed.

Lemma ValidateVersion_environ (c : Config) (version : string) (st : State) :
  getenv_table (fst (ValidateVersion c version st)) = getenv_table st.
Proof.
  unfold ValidateVersion. destruct (versionConstraints c); [|done].
  destruct (NewVersion version); [|done]. by destruct (negb _).
Qed.

(** C10. [Load] reads the document with a nil [extraEnv]: the overlay is
    not engaged, the reader is called directly, in the world [Load] was
    called in (for jsonnet, in the world the evaluation left).  [Load]
    itself never sets or unsets a variable, whatever [Env] the decoded
    configuration holds: when the collaborators leave the environment table
    as it is, so does [Load]. *)
Theorem Load_leaves_environ (l : configLoader) (ctx : context_Context)
    (path version : string) (st : State) :
  collaborators_leave_environ →
  getenv_table (fst (Load l ctx path version st)) = getenv_table st
  ∧ (∀ configPath,
       ReadWithEnv l configPath None
       = call (CallReadWithEnv configPath) (Loader_ReadWithEnv (Loader l) configPath))
  ∧ (∀ b,
       ReadWithEnvBytes l b None
       = call (CallReadWithEnvBytes b) (Loader_ReadWithEnvBytes (Loader l) b))
  ∧ (is_yaml (filepath.Ext path) = true →
       fst (Load_document l path st)
       = after_call st (CallReadWithEnv path)
           (fst (Loader_ReadWithEnv (Loader l) path (world st))))
  ∧ (is_json (filepath.Ext path) = true →
       ∀ w jsonStr, VM_EvaluateFile (VM l) path (world st) = (w, (jsonStr, None)) →
       fst (Load_document l path st)
       = after_call (after_call st (CallEvaluateFile path) w) (CallReadWithEnvBytes jsonStr)
           (fst (Loader_ReadWithEnvBytes (Loader l) jsonStr w))).
Proof.
  intros Hcoll. split; [|split; [done|split; [done|split]]].
  - rewrite Load_unfold.
    pose proof (Load_document_environ l path st Hcoll) as Hdoc.
    destruct (Load_document l path st) as [st1 [conf|err]]; [|done].
    pose proof (Restrict_environ ctx (set_dir (filepath.Dir path) conf) st1 Hcoll) as Hres.
    destruct (Restrict ctx _ st1) as [st2 [conf' [err|]]]; simpl in *; [congruence|].
    pose proof (ValidateVersion_environ conf' version st2) as Hver.
    destruct (ValidateVersion conf' version st2) as [st3 [err|]]; simpl in *; congruence.
  - intros Hy. rewrite Load_document_yaml by done.
    destruct (Loader_ReadWithEnv (Loader l) path (world st)) as [w [b [err|]]]; [done|].
    by destruct (unmarshalYAML b (new_Config path) path) as [conf [err|]].
  - intros Hj w jsonStr Heval. rewrite Load_document_json, Heval by done. simpl.
    destruct (Loader_ReadWithEnvBytes (Loader l) jsonStr w) as [w' [b [err|]]]; [done|].
    by destruct (unmarshalJSON b (new_Config path) path) as [conf [err|]].
Qed.

End Properties.
(** The standard library's own test tables, on the model. *)
Example Clean_cases :
  map filepath.Clean
    ["abc"; "abc/def"; "a/b/c"; "."; ".."; "../.."; "../../abc"; "/abc"; "/";
     ""; "abc/"; "abc/def/"; "a/b/c/"; "./"; "../"; "../../"; "/abc/";
     "abc//def//ghi"; "//abc"; "///abc"; "//abc//"; "abc//";
     "abc/./def"; "/./abc/def"; "abc/.";
     "abc/def/ghi/../jkl"; "abc/def/../ghi/../jkl"; "abc/def/.."; "abc/def/../..";
     "/abc/def/../.."; "abc/def/../../.."; "/abc/def/../../.."; "abc/def/../../../ghi/jkl/../../../mno";
     "/../abc"; "abc/./../def"; "abc//./../def"; "abc/../../././../def"]
  = ["abc"; "abc/def"; "a/b/c"; "."; ".."; "../.."; "../../abc"; "/abc"; "/";
     "."; "abc"; "abc/def"; "a/b/c"; "."; ".."; "../.."; "/abc";
     "abc/def/ghi"; "/abc"; "/abc"; "/abc"; "abc";
     "abc/def"; "/abc/def"; "abc";
     "abc/def/jkl"; "abc/jkl"; "abc"; ".";
     "/"; ".."; "/"; "../../mno";
     "/abc"; "def"; "def"; "../../def"].
Proof. vm_compute. reflexivity. Qed.

Example Join_cases :
  (filepath.Join "a" "b", filepath.Join "a" "", filepath.Join "" "b",
   filepath.Join "/" "a", filepath.Join "a/" "b", filepath.Join "" "",
   filepath.Join "." "ecs-service-def.json", filepath.Join "/etc/app" "../x.json")
  = ("a/b", "a", "b", "/a", "a/b", "", "ecs-service-def.json", "/etc/x.json").
Proof. vm_compute. reflexivity. Qed.

Example Dir_cases :
  map filepath.Dir [""; "."; "/."; "/"; "/foo"; "x/"; "abc"; "abc/def"; "a/b/.x"; "a/b/c."; "a/b/c.x"]
  = ["."; "."; "/"; "/"; "/"; "x"; "."; "abc"; "a/b"; "a/b"; "a/b"].
Proof. vm_compute. reflexivity. Qed.

Example Ext_cases :
  map filepath.Ext ["path.go"; "path.pb.go"; "a.dir/b"; "a.dir/b.go"; "a.dir/"; "ecspresso.yml"; ""]
  = [".go"; ".go"; ""; ".go"; ""; ".yml"; ""].
Proof. vm_compute. reflexivity. Qed.


(** * More of [config.go] *)

Section MoreProperties.
Context `{ET : ExternalTypes} `{Coll : !Collaborators}.

#[local] Arguments Restrict : simpl never.
#[local] Arguments Load_document : simpl never.
#[local] Arguments Load : simpl never.
#[local] Arguments ValidateVersion : simpl never.
#[local] Arguments setupPlugins : simpl never.
#[local] Arguments filepath.Dir : simpl never.
#[local] Arguments filepath.Join : simpl never.
#[local] Arguments filepath.Clean : simpl never.
#[local] Arguments filepath.Ext : simpl never.

Ltac unfold_monad :=
  repeat (simpl in *; unfold mbind, mret, M_bind, M_ret, call, Log,
            os_Getenv, os_LookupEnv, os_Setenv, os_Unsetenv in *).

(** ** The overlay, continued *)

Lemma withExtraEnvSet_spec (m : gmap string string) (f : M (bytes * option error))
    (st : State) :
  let ran := f (set_environ (m ∪ getenv_table st) st) in
  ∃ env',
    withExtraEnvSet (Some m) f st = (set_environ env' (fst ran), snd ran)
    ∧ (∀ j, env' !! j = if decide (j ∈ dom m)
                        then getenv_table st !! j
                        else getenv_table (fst ran) !! j).
Proof.
  apply (withExtraEnvSet_in_order_spec map_to_list map_to_list);
    apply map_to_list_visits.
Qed.

(** X1. When the operation itself does not change the environment, the
    whole table after [withExtraEnvSet] is the table before it: no entry of
    [extraEnv] is left behind and none is lost. *)
Theorem withExtraEnvSet_no_leak (extraEnv : option (gmap string string))
    (f : M (bytes * option error)) (st : State) :
  leaves_environ f →
  getenv_table (fst (withExtraEnvSet extraEnv f st)) = getenv_table st.
Proof.
  intros Hf. destruct extraEnv as [m|]; [|apply Hf].
  destruct (withExtraEnvSet_spec m f st) as (env' & -> & Henv).
  simpl. rewrite getenv_table_set. apply map_eq. intros j. rewrite Henv.
  case_decide as Hj; [done|].
  rewrite Hf, getenv_table_set. apply lookup_union_r. by apply not_elem_of_dom.
Qed.

(** X2. The order in which the two [range] loops of [withExtraEnvSet] visit
    their maps, which Go leaves unspecified, makes no difference: any two
    choices of orders give the same state and the same result. *)
Theorem withExtraEnvSet_order_irrelevant
    (order1 order1' : gmap string string → list (string * string))
    (order2 order2' : gmap string (option string) → list (string * option string))
    (extraEnv : option (gmap string string)) (f : M (bytes * option error)) (st : State) :
  visits_each_entry_once order1 → visits_each_entry_once order2 →
  visits_each_entry_once order1' → visits_each_entry_once order2' →
  withExtraEnvSet_in_order order1 order2 extraEnv f st
  = withExtraEnvSet_in_order order1' order2' extraEnv f st.
Proof.
  intros H1 H2 H1' H2'.
  by rewrite (withExtraEnvSet_any_order order1 order2),
    (withExtraEnvSet_any_order order1' order2').
Qed.

(** X3. Two overlays, one inside the other: the operation runs with the
    inner map on top of the outer map on top of the table, and afterwards
    every key of either map holds what it held before the outer call; the
    other keys are as the operation left them. *)
Theorem withExtraEnvSet_nested (outer inner : gmap string string)
    (f : M (bytes * option error)) (st : State) :
  let ran := f (set_environ (inner ∪ (outer ∪ getenv_table st)) st) in
  ∃ env',
    withExtraEnvSet (Some outer) (withExtraEnvSet (Some inner) f) st
    = (set_environ env' (fst ran), snd ran)
    ∧ (∀ k, k ∈ dom outer ∪ dom inner → env' !! k = getenv_table st !! k)
    ∧ (∀ k, k ∉ dom outer ∪ dom inner → env' !! k = getenv_table (fst ran) !! k).
Proof.
  intros ran.
  destruct (withExtraEnvSet_spec outer (withExtraEnvSet (Some inner) f) st)
    as (env2 & Hrun2 & Henv2).
  destruct (withExtraEnvSet_spec inner f (set_environ (outer ∪ getenv_table st) st))
    as (env1 & Hrun1 & Henv1).
  rewrite getenv_table_set, set_environ_twice in Hrun1, Henv1. fold ran in Hrun1, Henv1.
  rewrite Hrun1 in Hrun2, Henv2. simpl in Hrun2, Henv2.
  rewrite set_environ_twice in Hrun2. rewrite getenv_table_set in Henv2.
  exists env2. split; [exact Hrun2|].
  split; intros k Hk; rewrite Henv2.
  - case_decide as Ho; [done|]. rewrite Henv1.
    apply elem_of_union in Hk as [Hk|Hk]; [done|].
    rewrite decide_True by done.
    apply lookup_union_r. by apply not_elem_of_dom.
  - apply not_elem_of_union in Hk as [Ho Hi].
    rewrite decide_False by done. rewrite Henv1. by rewrite decide_False.
Qed.

(** A collaborator call under the overlay. *)
Lemma withExtraEnvSet_call (m : gmap string string) (c : Call)
    (op : World → World * (bytes * option error)) (st : State) :
  let w_in := mkWorld (m ∪ getenv_table st) (outside (world st)) in
  let st' := fst (withExtraEnvSet (Some m) (call c op) st) in
  snd (withExtraEnvSet (Some m) (call c op) st) = snd (op w_in)
  ∧ calls st' = calls st ++ [c]
  ∧ logs st' = logs st
  ∧ awsv2ConfigLoadOptionsFunc st' = awsv2ConfigLoadOptionsFunc st
  ∧ outside (world st') = outside (fst (op w_in))
  ∧ (∀ k, k ∈ dom m → getenv_table st' !! k = getenv_table st !! k)
  ∧ (environ (fst (op w_in)) = environ w_in → getenv_table st' = getenv_table st).
Proof.
  intros w_in st'. subst st'.
  destruct (withExtraEnvSet_spec m (call c op) st) as (env' & -> & Henv).
  unfold call in *. simpl in *. fold w_in in Henv |- *.
  destruct (op w_in) as [w' r] eqn:Hop. simpl in *.
  repeat split; try done.
  - intros k Hk. unfold getenv_table. simpl. rewrite Henv. by rewrite decide_True.
  - intros Hsame. unfold getenv_table in *. simpl in *. apply map_eq. intros j.
    rewrite Henv. case_decide as Hj; [done|].
    rewrite Hsame. apply lookup_union_r. by apply not_elem_of_dom.
Qed.

(** X4. [ReadWithEnv] and [ReadWithEnvBytes] with a non-nil [extraEnv]: the
    reader of the library is called once, in a world whose environment is
    [extraEnv] on top of the table; what it returns is returned; afterwards
    the keys of [extraEnv] hold what they held before, and when the reader
    leaves the environment alone the whole table is as before. *)
Theorem ReadWithEnv_under_overlay (c : configLoader) (configPath : string) (b : bytes)
    (m : gmap string string) (st : State) :
  let w_in := mkWorld (m ∪ getenv_table st) (outside (world st)) in
  let read := ReadWithEnv c configPath (Some m) st in
  let read_bytes := ReadWithEnvBytes c b (Some m) st in
  (snd read = snd (Loader_ReadWithEnv (Loader c) configPath w_in)
   ∧ calls (fst read) = calls st ++ [CallReadWithEnv configPath]
   ∧ (∀ k, k ∈ dom m → getenv_table (fst read) !! k = getenv_table st !! k)
   ∧ (environ (fst (Loader_ReadWithEnv (Loader c) configPath w_in)) = environ w_in →
      getenv_table (fst read) = getenv_table st))
  ∧ (snd read_bytes = snd (Loader_ReadWithEnvBytes (Loader c) b w_in)
     ∧ calls (fst read_bytes) = calls st ++ [CallReadWithEnvBytes b]
     ∧ (∀ k, k ∈ dom m → getenv_table (fst read_bytes) !! k = getenv_table st !! k)
     ∧ (environ (fst (Loader_ReadWithEnvBytes (Loader c) b w_in)) = environ w_in →
        getenv_table (fst read_bytes) = getenv_table st)).
Proof.
  intros w_in read read_bytes. split.
  - destruct (withExtraEnvSet_call m (CallReadWithEnv configPath)
                (Loader_ReadWithEnv (Loader c) configPath) st)
      as (Hres & Hcalls & _ & _ & _ & Hkeys & Hall).
    by repeat split.
  - destruct (withExtraEnvSet_call m (CallReadWithEnvBytes b)
                (Loader_ReadWithEnvBytes (Loader c) b) st)
      as (Hres & Hcalls & _ & _ & _ & Hkeys & Hall).
    by repeat split.
Qed.

(** ** [OverrideByCLIOptions] *)

(** X5. [OverrideByCLIOptions] sets [Timeout] to the option's timeout when
    there is one and keeps it otherwise, so a timeout that is not nil stays
    not nil; it sets [FilterCommand] to the option's when that is not empty
    and keeps it otherwise, so options cannot clear a filter command; and
    with neither a timeout nor a filter command the configuration is
    unchanged. *)
Theorem OverrideByCLIOptions_overrides (c : Config) (opt : CLIOptions) :
  let c' := OverrideByCLIOptions c opt in
  (∀ timeout, CLIOptions_Timeout opt = Some timeout → Timeout c' = Some (mkDuration timeout))
  ∧ (CLIOptions_Timeout opt = None → Timeout c' = Timeout c)
  ∧ (Timeout c ≠ None → Timeout c' ≠ None)
  ∧ (CLIOptions_FilterCommand opt ≠ "" → FilterCommand c' = CLIOptions_FilterCommand opt)
  ∧ (CLIOptions_FilterCommand opt = "" → FilterCommand c' = FilterCommand c)
  ∧ (FilterCommand c ≠ "" → FilterCommand c' ≠ "")
  ∧ (CLIOptions_Timeout opt = None → CLIOptions_FilterCommand opt = "" → c' = c).
Proof.
  intros c'. subst c'. unfold OverrideByCLIOptions.
  destruct (CLIOptions_Timeout opt) as [timeout|];
    case_bool_decide as Hfc; simpl; repeat split; intros; simplify_eq; try done.
Qed.

(** X6. Overriding twice is overriding once by the combined options, where
    the later options win wherever they say something; in particular,
    overriding again by the same options changes nothing. *)
Theorem OverrideByCLIOptions_twice (c : Config) (first second : CLIOptions) :
  OverrideByCLIOptions (OverrideByCLIOptions c first) second
  = OverrideByCLIOptions c (then_options first second)
  ∧ OverrideByCLIOptions (OverrideByCLIOptions c first) first = OverrideByCLIOptions c first.
Proof.
  unfold OverrideByCLIOptions, then_options. simpl.
  destruct (CLIOptions_Timeout first), (CLIOptions_Timeout second);
    repeat case_bool_decide; simpl; try done.
Qed.

(** ** The tag filter, continued *)

(** X7. Two ignore rules applied one after the other commute, and they
    remove what the one rule with both key lists removes. *)
Theorem filterTags_compose (i1 i2 : option ConfigIgnore) (tags : list Tag) :
  filterTags i1 (filterTags i2 tags) = filterTags i2 (filterTags i1 tags)
  ∧ filterTags i1 (filterTags i2 tags)
    = filterTags (Some (mkConfigIgnore (ignored_keys i1 ++ ignored_keys i2))) tags.
Proof.
  rewrite !filterTags_filter. simpl.
  assert (∀ (k1 k2 : list string),
            filter (λ tag, aws_ToString (Key tag) ∉ k1)
              (filter (λ tag, aws_ToString (Key tag) ∉ k2) tags)
            = filter (λ tag, aws_ToString (Key tag) ∉ k1 ++ k2) tags) as Hboth.
  { intros k1 k2. induction tags as [|tag rest IH]; [done|].
    rewrite !(filter_cons _ tag). rewrite <- IH.
    destruct (decide (aws_ToString (Key tag) ∉ k2)) as [H2|H2].
    - rewrite filter_cons.
      destruct (decide (aws_ToString (Key tag) ∉ k1)) as [H1|H1].
      + rewrite decide_True; [done|]. rewrite elem_of_app. tauto.
      + rewrite decide_False; [done|]. rewrite elem_of_app. tauto.
    - rewrite decide_False; [done|]. rewrite elem_of_app. tauto. }
  split; [|apply Hboth].
  rewrite !Hboth. apply list_filter_iff. intros tag. rewrite !elem_of_app. tauto.
Qed.

(** X8. The filter works tag by tag: it distributes over the
    concatenation of tag lists, and it never returns more tags than it was
    given. *)
Theorem filterTags_app (i : option ConfigIgnore) (tags1 tags2 : list Tag) :
  filterTags i (tags1 ++ tags2) = filterTags i tags1 ++ filterTags i tags2
  ∧ length (filterTags i tags1) ≤ length tags1.
Proof.
  rewrite !filterTags_filter. split; [apply filter_app | apply length_filter].
Qed.

(** X9. A tag is judged by its key alone, and a nil key counts as the
    empty string: a tag is removed exactly when that string is in the key
    list, so a rule that lists the empty string removes the tags without a
    key, and no other rule does. *)
Theorem filterTags_nil_key (i : option ConfigIgnore) (tag : Tag) :
  (filterTags i [tag] = [] ↔ aws_ToString (Key tag) ∈ ignored_keys i)
  ∧ (filterTags i [tag] = [tag] ↔ aws_ToString (Key tag) ∉ ignored_keys i)
  ∧ (Key tag = None → (filterTags i [tag] = [] ↔ "" ∈ ignored_keys i)).
Proof.
  rewrite filterTags_filter.
  assert (filter (λ tag0, aws_ToString (Key tag0) ∉ ignored_keys i) [tag]
          = if decide (aws_ToString (Key tag) ∉ ignored_keys i) then [tag] else []) as ->.
  { rewrite filter_cons. by case_decide. }
  split; [|split].
  - case_decide as H; split; intros; try done; by apply dec_stable.
  - case_decide as H; split; intros; done.
  - intros ->. simpl. case_decide as H; split; intros; try done; by apply dec_stable.
Qed.

(** ** [Restrict], continued *)

Lemma Restrict_success (ctx : context_Context) (c c' : Config) (st st' : State) :
  Restrict ctx c st = (st', (c', None)) →
  ∃ c2 w cfg st5,
    parse_required_version (with_defaults c) = inl c2
    ∧ LoadDefaultConfig ctx (load_options st (with_timeout_and_region st c2)) (world st)
      = (w, (cfg, None))
    ∧ setupPlugins ctx (set_awsv2Config cfg (with_timeout_and_region st c2))
        (after_load_call st (load_options st (with_timeout_and_region st c2)) w)
      = (st5, (c', None))
    ∧ st' = warn_filter_command c' st5.
Proof.
  rewrite Restrict_unfold.
  destruct (parse_required_version (with_defaults c)) as [c2|err]; [|done].
  cbv zeta.
  destruct (LoadDefaultConfig ctx _ (world st)) as [w [cfg [err|]]] eqn:Hload; [done|].
  destruct (setupPlugins ctx _ _) as [st5 [c5 [err|]]] eqn:Hplug; [done|].
  intros [= <- <-]. by exists c2, w, cfg, st5.
Qed.

(** A field that the defaults of [Restrict] do not assign. *)
Lemma with_defaults_keeps {A : Type} (field : Config → A) (c : Config) :
  (∀ v c, field (set_Cluster v c) = field c) →
  (∀ v c, field (set_dir v c) = field c) →
  (∀ v c, field (set_ServiceDefinitionPath v c) = field c) →
  (∀ v c, field (set_TaskDefinitionPath v c) = field c) →
  field (with_defaults c) = field c.
Proof.
  intros Hc Hd Hs Ht. unfold with_defaults. cbv zeta.
  repeat match goal with
         | |- context [if ?b then _ else _] => destruct b
         end; rewrite ?Ht, ?Hs, ?Hd, ?Hc; done.
Qed.

Lemma parse_required_version_ok (c c2 : Config) :
  parse_required_version (with_defaults c) = inl c2 →
  (RequiredVersion c = "" ∧ c2 = with_defaults c)
  ∨ (RequiredVersion c ≠ ""
     ∧ ∃ constraints, NewConstraint (RequiredVersion c) = inl constraints
                      ∧ c2 = set_versionConstraints (Some constraints) (with_defaults c)).
Proof.
  unfold parse_required_version. rewrite with_defaults_RequiredVersion.
  case_bool_decide as Hrv.
  - destruct (NewConstraint (RequiredVersion c)) as [constraints|err]; [|done].
    intros [= <-]. right. split; [done|]. by exists constraints.
  - intros [= <-]. left. split; [|done].
    destruct (decide (RequiredVersion c = "")); [done|]. by destruct Hrv.
Qed.

Lemma with_timeout_and_region_Region (st : State) (c : Config) :
  Region (with_timeout_and_region st c)
  = if bool_decide (Region c = "")
    then default "" (getenv_table st !! "AWS_REGION")
    else Region c.
Proof.
  unfold with_timeout_and_region.
  destruct (Timeout c); simpl; case_bool_decide; done.
Qed.

Lemma with_timeout_and_region_Timeout (st : State) (c : Config) :
  Timeout (with_timeout_and_region st c)
  = match Timeout c with
    | None => Some (mkDuration DefaultTimeout)
    | Some d => Some d
    end.
Proof.
  unfold with_timeout_and_region.
  destruct (Timeout c) eqn:E; simpl; case_bool_decide; simpl; by rewrite ?E.
Qed.

Lemma with_timeout_and_region_keeps {A : Type} (field : Config → A) (st : State) (c : Config) :
  (∀ v c, field (set_Timeout v c) = field c) →
  (∀ v c, field (set_Region v c) = field c) →
  field (with_timeout_and_region st c) = field c.
Proof.
  intros Ht Hr. unfold with_timeout_and_region.
  destruct (Timeout c); simpl; case_bool_decide; rewrite ?Hr, ?Ht; done.
Qed.

(** After a [Restrict] without error, a field that no plugin and not
    [set_awsv2Config] assigns holds what it held when the AWS configuration
    was loaded. *)
Lemma Restrict_success_field {A : Type} (field : Config → A)
    (ctx : context_Context) (c c' : Config) (st st' : State) :
  (∀ v c, field (set_awsv2Config v c) = field c) →
  Setup_keeps field →
  Restrict ctx c st = (st', (c', None)) →
  ∃ c2, parse_required_version (with_defaults c) = inl c2
        ∧ field c' = field (with_timeout_and_region st c2).
Proof.
  intros Ha Hkeep Hrun.
  destruct (Restrict_success ctx c c' st st' Hrun) as (c2 & w & cfg & st5 & Hparse & _ & Hplug & _).
  exists c2. split; [done|].
  pose proof (setupPlugins_keeps field ctx
                (set_awsv2Config cfg (with_timeout_and_region st c2))
                (after_load_call st (load_options st (with_timeout_and_region st c2)) w)
                Hkeep) as Hfield.
  rewrite Hplug in Hfield. simpl in Hfield. by rewrite Hfield, Ha.
Qed.

Lemma Restrict_success_versionConstraints
    (ctx : context_Context) (c c' : Config) (st st' : State) :
  Setup_keeps versionConstraints →
  Restrict ctx c st = (st', (c', None)) →
  (RequiredVersion c = "" ∧ versionConstraints c' = versionConstraints c)
  ∨ (RequiredVersion c ≠ ""
     ∧ ∃ constraints, NewConstraint (RequiredVersion c) = inl constraints
                      ∧ versionConstraints c' = Some constraints).
Proof.
  intros Hkeep Hrun.
  destruct (Restrict_success_field versionConstraints ctx c c' st st' (λ _ _, eq_refl) Hkeep Hrun)
    as (c2 & Hparse & ->).
  rewrite (with_timeout_and_region_keeps versionConstraints) by done.
  destruct (parse_required_version_ok c c2 Hparse) as [[Hrv ->]|(Hrv & constraints & Hc & ->)].
  - left. split; [done|]. by apply (with_defaults_keeps versionConstraints).
  - right. split; [done|]. by exists constraints.
Qed.

(** X10. After a [Restrict] without error, in which no plugin assigns the
    constraint set: with an empty [required_version] the constraint set is
    the one the configuration had (nil for a fresh configuration); with a
    non-empty one it is not nil, and it is what [NewConstraint] parsed from
    that expression. *)
Theorem Restrict_versionConstraints
    (ctx : context_Context) (c c' : Config) (st st' : State) :
  Setup_keeps versionConstraints →
  Restrict ctx c st = (st', (c', None)) →
  (RequiredVersion c = "" → versionConstraints c' = versionConstraints c)
  ∧ (RequiredVersion c ≠ "" →
     ∃ constraints, NewConstraint (RequiredVersion c) = inl constraints
                    ∧ versionConstraints c' = Some constraints).
Proof.
  intros Hkeep Hrun.
  destruct (Restrict_success_versionConstraints ctx c c' st st' Hkeep Hrun)
    as [[Hrv Hsame]|(Hrv & Hparsed)]; split; intros; done.
Qed.

(** X11. A configuration without [required_version] and without a
    constraint set accepts every version string after [Restrict], parsable
    or not. *)
Theorem ValidateVersion_without_required_version
    (ctx : context_Context) (c c' : Config) (st st' : State) :
  Setup_keeps versionConstraints →
  RequiredVersion c = "" → versionConstraints c = None →
  Restrict ctx c st = (st', (c', None)) →
  ∀ version st2, ValidateVersion c' version st2 = (st2, None).
Proof.
  intros Hkeep Hrv Hnone Hrun version st2.
  destruct (Restrict_success_versionConstraints ctx c c' st st' Hkeep Hrun)
    as [[_ Hsame]|(Hne & _)]; [|done].
  unfold ValidateVersion. by rewrite Hsame, Hnone.
Qed.

(** X12. After a [Restrict] without error, in which no plugin assigns
    [Region]: a region given in the configuration is kept, whatever the
    environment holds, and an empty one is replaced by the value of
    [AWS_REGION] at the time of the call, the empty string when that
    variable is not set. *)
Theorem Restrict_Region (ctx : context_Context) (c c' : Config) (st st' : State) :
  Setup_keeps Region →
  Restrict ctx c st = (st', (c', None)) →
  (Region c ≠ "" → Region c' = Region c)
  ∧ (Region c = "" → ∀ value, getenv_table st !! "AWS_REGION" = Some value → Region c' = value)
  ∧ (Region c = "" → getenv_table st !! "AWS_REGION" = None → Region c' = "").
Proof.
  intros Hkeep Hrun.
  destruct (Restrict_success_field Region ctx c c' st st' (λ _ _, eq_refl) Hkeep Hrun)
    as (c2 & Hparse & ->).
  rewrite with_timeout_and_region_Region.
  assert (Region c2 = Region c) as ->.
  { destruct (parse_required_version_ok c c2 Hparse) as [[_ ->]|(_ & cs & _ & ->)];
      by apply (with_defaults_keeps Region). }
  split; [|split].
  - intros Hne. by rewrite bool_decide_eq_false_2.
  - intros -> value ->. done.
  - intros -> ->. done.
Qed.

Lemma parse_required_version_keeps_field {A : Type} (field : Config → A) (c c2 : Config) :
  (∀ v c, field (set_Cluster v c) = field c) →
  (∀ v c, field (set_dir v c) = field c) →
  (∀ v c, field (set_ServiceDefinitionPath v c) = field c) →
  (∀ v c, field (set_TaskDefinitionPath v c) = field c) →
  (∀ v c, field (set_versionConstraints v c) = field c) →
  parse_required_version (with_defaults c) = inl c2 → field c2 = field c.
Proof.
  intros Hc Hd Hs Ht Hv Hparse.
  destruct (parse_required_version_ok c c2 Hparse) as [[_ ->]|(_ & cs & _ & ->)];
    rewrite ?Hv; by apply with_defaults_keeps.
Qed.

(** X13. The calls [Restrict] makes, in their order.  When the constraint
    does not parse it makes none and leaves the state as it is.  Otherwise
    it calls [LoadDefaultConfig] once, with the override options when there
    are any and else with the single option [WithRegion] of the region it
    resolved, and then [Setup] on the first plugins of the pipeline, in
    order: on none of them when the AWS configuration fails to load, on all
    of them when [Restrict] returns no error. *)
Theorem Restrict_call_sequence (ctx : context_Context) (c : Config) (st : State) :
  let r := Restrict ctx c st in
  let region := if bool_decide (Region c = "")
                then default "" (getenv_table st !! "AWS_REGION")
                else Region c in
  let opts := if bool_decide (length (awsv2ConfigLoadOptionsFunc st) = 0)
              then [WithRegion region]
              else awsv2ConfigLoadOptionsFunc st in
  (fst r = st
   ∧ RequiredVersion c ≠ ""
   ∧ ∃ err, NewConstraint (RequiredVersion c) = inr err)
  ∨ (∃ invoked,
       calls (fst r) = calls st ++ CallLoadDefaultConfig opts :: (CallSetup <$> invoked)
       ∧ invoked `prefix_of` pipeline c
       ∧ (is_Some (snd (snd (LoadDefaultConfig ctx opts (world st)))) → invoked = [])
       ∧ (snd (snd r) = None → invoked = pipeline c)).
Proof.
  intros r region opts. subst r. rewrite Restrict_unfold.
  destruct (parse_required_version (with_defaults c)) as [c2|err] eqn:Hparse.
  2:{ left. apply parse_required_version_error in Hparse as (Hne & err' & Hc & _).
      split; [done|]. split; [done|]. by exists err'. }
  right. cbv zeta.
  assert (load_options st (with_timeout_and_region st c2) = opts) as ->.
  { unfold load_options. subst opts region. rewrite with_timeout_and_region_Region.
    by rewrite (parse_required_version_keeps_field Region c c2). }
  assert (pipeline (with_timeout_and_region st c2) = pipeline c) as Hpipe.
  { unfold pipeline. rewrite (with_timeout_and_region_keeps Plugins) by done.
    by rewrite (parse_required_version_keeps_field Plugins c c2). }
  destruct (LoadDefaultConfig ctx opts (world st)) as [w [cfg [err|]]] eqn:Hload.
  { exists []. simpl. split; [done|]. split; [apply prefix_nil|]. by split. }
  rewrite setupPlugins_pipeline.
  destruct (setupPlugins_loop_run ctx (pipeline (set_awsv2Config cfg (with_timeout_and_region st c2)))
              (set_awsv2Config cfg (with_timeout_and_region st c2)) (after_load_call st opts w))
    as (invoked & st5 & c5 & err & -> & Hrun & Hcalls & _).
  change (pipeline (set_awsv2Config cfg (with_timeout_and_region st c2)))
    with (pipeline (with_timeout_and_region st c2)) in Hrun.
  rewrite Hpipe in Hrun.
  destruct (pipeline_run_prefix _ _ _ _ _ _ _ _ Hrun) as [Hprefix Hall].
  exists invoked. simpl in Hcalls.
  destruct err as [err|]; simpl.
  - rewrite Hcalls, <- app_assoc. split; [done|]. split; [done|].
    split; [by intros [? [=]] | done].
  - split.
    { unfold warn_filter_command. case_bool_decide; simpl; by rewrite Hcalls, <- app_assoc. }
    split; [done|]. split; [by intros [? [=]] | done].
Qed.

(** ** [ValidateVersion], continued *)

(** X14. [ValidateVersion] changes nothing but the log, and the log only in
    one case: when there is a constraint set and the version string does not
    parse, one warning that quotes the string is logged and nil is returned;
    an error is never accompanied by a log line. *)
Theorem ValidateVersion_state (c : Config) (version : string) (st : State) :
  let st' := fst (ValidateVersion c version st) in
  world st' = world st
  ∧ calls st' = calls st
  ∧ awsv2ConfigLoadOptionsFunc st' = awsv2ConfigLoadOptionsFunc st
  ∧ ((st' = st)
     ∨ (∃ constraints parse_error msg,
          versionConstraints c = Some constraints
          ∧ NewVersion version = inr parse_error
          ∧ logs st' = logs st ++ [msg]
          ∧ contains msg version = true
          ∧ snd (ValidateVersion c version st) = None))
  ∧ (is_Some (snd (ValidateVersion c version st)) → st' = st).
Proof.
  intros st'. subst st'. unfold ValidateVersion.
  destruct (versionConstraints c) as [constraints|].
  2:{ split; [done|]. split; [done|]. split; [done|]. split; [by left | done]. }
  destruct (NewVersion version) as [v|parse_error].
  { destruct (negb _); (split; [done|]; split; [done|]; split; [done|];
                        split; [by left | done]). }
  unfold_monad. split; [done|]. split; [done|]. split; [done|]. split.
  - right. eexists constraints, parse_error, _. split; [done|]. split; [done|].
    split; [done|]. split; [|done].
    apply (contains_app ("[WARNING] Invalid version format " +:+ String (ascii_of_nat 34) "")
             version).
  - by intros [? [=]].
Qed.

(** ** [NewDefaultConfig] *)

(** X15. [NewDefaultConfig] changes no state, and [Restrict] agrees with
    its defaults: after a [Restrict] without error of a default
    configuration made in the same state, in which no plugin assigns these
    fields, [Region] and [Timeout] are what [NewDefaultConfig] set (the
    value of [AWS_REGION] and ten minutes) and [Cluster], which
    [NewDefaultConfig] leaves empty, is ["default"]. *)
Theorem NewDefaultConfig_then_Restrict
    (ctx : context_Context) (c' : Config) (st st' : State) :
  Setup_keeps Region → Setup_keeps Timeout → Setup_keeps Cluster →
  Restrict ctx (snd (NewDefaultConfig st)) st = (st', (c', None)) →
  fst (NewDefaultConfig st) = st
  ∧ Region c' = Region (snd (NewDefaultConfig st))
  ∧ Region c' = default "" (getenv_table st !! "AWS_REGION")
  ∧ Timeout c' = Timeout (snd (NewDefaultConfig st))
  ∧ Timeout c' = Some (mkDuration (10 * time_Minute))
  ∧ Cluster (snd (NewDefaultConfig st)) = ""
  ∧ Cluster c' = "default".
Proof.
  intros Hr Ht Hc Hrun.
  set (c0 := snd (NewDefaultConfig st)) in *.
  assert (Region c0 = default "" (getenv_table st !! "AWS_REGION")) as HR0 by done.
  assert (Timeout c0 = Some (mkDuration DefaultTimeout)) as HT0 by done.
  assert (Cluster c0 = "") as HC0 by done.
  destruct (Restrict_success_field Region ctx c0 c' st st' (λ _ _, eq_refl) Hr Hrun)
    as (c2 & Hparse & HR).
  destruct (Restrict_success_field Timeout ctx c0 c' st st' (λ _ _, eq_refl) Ht Hrun)
    as (c2' & Hparse' & HT).
  rewrite Hparse in Hparse'. injection Hparse' as <-.
  pose proof (Restrict_keeps Cluster ctx c0 st
                (conj (λ _ _, eq_refl) (conj (λ _ _, eq_refl) (λ _ _, eq_refl)))
                (λ _ _, eq_refl) Hc) as HC.
  rewrite Hrun in HC. cbn [fst snd] in HC.
  rewrite with_defaults_Cluster, HC0 in HC.
  rewrite with_timeout_and_region_Region in HR.
  rewrite (parse_required_version_keeps_field Region c0 c2) in HR by done.
  rewrite with_timeout_and_region_Timeout in HT.
  rewrite (parse_required_version_keeps_field Timeout c0 c2) in HT by done.
  rewrite HT0 in HT. rewrite HR0 in HR |- *.
  assert (Region c' = default "" (getenv_table st !! "AWS_REGION")) as HR'.
  { rewrite HR. by destruct (bool_decide _). }
  by rewrite HT0, HR', HT, HC.
Qed.

(** ** [Load], continued *)

Lemma with_registered_Loader (conf : Config) (l : configLoader) :
  Loader (with_registered conf l)
  = fold_left (λ loader f, Loader_Funcs f loader) (templateFuncs conf) (Loader l)
  ∧ VM (with_registered conf l)
    = fold_left (λ vm f, VM_NativeFunction f vm) (jsonnetNativeFuncs conf) (VM l).
Proof.
  unfold with_registered.
  assert (∀ natives l0,
            Loader (fold_left (λ l f, mkConfigLoader (Loader l) (VM_NativeFunction f (VM l)))
                      natives l0) = Loader l0
            ∧ VM (fold_left (λ l f, mkConfigLoader (Loader l) (VM_NativeFunction f (VM l)))
                    natives l0)
              = fold_left (λ vm f, VM_NativeFunction f vm) natives (VM l0)) as Hnatives.
  { induction natives as [|f natives IH]; intros l0; [done|]. simpl.
    destruct (IH (mkConfigLoader (Loader l0) (VM_NativeFunction f (VM l0)))) as [-> ->]. done. }
  assert (∀ funcs l0,
            Loader (fold_left (λ l f, mkConfigLoader (Loader_Funcs f (Loader l)) (VM l))
                      funcs l0)
            = fold_left (λ loader f, Loader_Funcs f loader) funcs (Loader l0)
            ∧ VM (fold_left (λ l f, mkConfigLoader (Loader_Funcs f (Loader l)) (VM l))
                    funcs l0) = VM l0) as Hfuncs.
  { induction funcs as [|f funcs IH]; intros l0; [done|]. simpl.
    destruct (IH (mkConfigLoader (Loader_Funcs f (Loader l0)) (VM l0))) as [-> ->]. done. }
  cbv zeta. destruct (Hnatives (jsonnetNativeFuncs conf)
                        (fold_left (λ l f, mkConfigLoader (Loader_Funcs f (Loader l)) (VM l))
                           (templateFuncs conf) l)) as [-> ->].
  by destruct (Hfuncs (templateFuncs conf) l) as [-> ->].
Qed.

(** X16. [Load] registers functions with the loader only when it succeeds:
    with an error the loader is returned as it was; on success the
    [goConfig.Loader] has received the template functions of the
    configuration, in their order, the jsonnet VM its native functions, in
    their order, and nothing else. *)
Theorem Load_registers_on_success_only (l : configLoader) (ctx : context_Context)
    (path version : string) (st : State) :
  let r := Load l ctx path version st in
  (is_Some (snd (snd (snd r))) → fst (snd r) = l)
  ∧ (∀ conf, fst (snd (snd r)) = Some conf →
       Loader (fst (snd r))
       = fold_left (λ loader f, Loader_Funcs f loader) (templateFuncs conf) (Loader l)
       ∧ VM (fst (snd r))
         = fold_left (λ vm f, VM_NativeFunction f vm) (jsonnetNativeFuncs conf) (VM l)).
Proof.
  intros r. subst r. rewrite Load_unfold.
  destruct (Load_document l path st) as [st1 [conf|err]]; [|by split].
  destruct (Restrict ctx _ st1) as [st2 [conf' [err|]]]; [by split|].
  destruct (ValidateVersion conf' version st2) as [st3 [err|]]; [by split|].
  split; [by intros [? [=]]|]. intros conf0 [= <-]. apply with_registered_Loader.
Qed.

Lemma Load_document_calls (l : configLoader) (path : string) (st st1 : State) (conf : Config) :
  Load_document l path st = (st1, inl conf) →
  (is_yaml (filepath.Ext path) = true ∧ calls st1 = calls st ++ [CallReadWithEnv path])
  ∨ (is_json (filepath.Ext path) = true
     ∧ ∃ jsonStr, calls st1 = calls st ++ [CallEvaluateFile path; CallReadWithEnvBytes jsonStr]).
Proof.
  destruct (is_yaml (filepath.Ext path)) eqn:Hy.
  - rewrite Load_document_yaml by done.
    destruct (Loader_ReadWithEnv (Loader l) path (world st)) as [w [b [err|]]]; [done|].
    destruct (unmarshalYAML b (new_Config path) path) as [conf0 [err|]]; [done|].
    intros [= <- <-]. by left.
  - destruct (is_json (filepath.Ext path)) eqn:Hj.
    + rewrite Load_document_json by done.
      destruct (VM_EvaluateFile (VM l) path (world st)) as [w [jsonStr [err|]]]; [done|].
      cbv zeta.
      destruct (Loader_ReadWithEnvBytes (Loader l) jsonStr w) as [w' [b [err|]]]; [done|].
      destruct (unmarshalJSON b (new_Config path) path) as [conf0 [err|]]; [done|].
      intros [= <- <-]. right. split; [done|]. exists jsonStr. simpl. by rewrite <- app_assoc.
    + by rewrite Load_document_unsupported.
Qed.

Lemma Restrict_success_calls (ctx : context_Context) (c c' : Config) (st st' : State) :
  Restrict ctx c st = (st', (c', None)) →
  ∃ opts, calls st' = calls st ++ CallLoadDefaultConfig opts :: (CallSetup <$> pipeline c).
Proof.
  intros Hrun.
  destruct (Restrict_success ctx c c' st st' Hrun)
    as (c2 & w & cfg & st5 & Hparse & Hload & Hplug & ->).
  exists (load_options st (with_timeout_and_region st c2)).
  rewrite setupPlugins_pipeline in Hplug.
  destruct (setupPlugins_loop_run ctx
              (pipeline (set_awsv2Config cfg (with_timeout_and_region st c2)))
              (set_awsv2Config cfg (with_timeout_and_region st c2))
              (after_load_call st (load_options st (with_timeout_and_region st c2)) w))
    as (invoked & st5' & c5 & err & Hrun' & Hpipe & Hcalls & _).
  rewrite Hplug in Hrun'. injection Hrun' as <- <- <-.
  destruct (pipeline_run_prefix _ _ _ _ _ _ _ _ Hpipe) as [_ ->].
  assert (pipeline (set_awsv2Config cfg (with_timeout_and_region st c2)) = pipeline c) as Hp.
  { unfold pipeline. change (Plugins (set_awsv2Config cfg ?x)) with (Plugins x).
    rewrite (with_timeout_and_region_keeps Plugins) by done.
    by rewrite (parse_required_version_keeps_field Plugins c c2). }
  assert (calls (warn_filter_command c' st5) = calls st5) as ->.
  { unfold warn_filter_command. by case_bool_decide. }
  rewrite Hcalls, Hp. simpl. by rewrite <- app_assoc.
Qed.

Lemma ValidateVersion_calls (c : Config) (version : string) (st : State) :
  calls (fst (ValidateVersion c version st)) = calls st.
Proof.
  unfold ValidateVersion. destruct (versionConstraints c); [|done].
  destruct (NewVersion version); [|done]. by destruct (negb _).
Qed.

(** X17. Once the document is decoded and [Restrict] returns no error,
    [Load] has called, after the calls that read the document, one
    [LoadDefaultConfig] and then [Setup] on every plugin of the pipeline of
    the decoded configuration, in order, and nothing else; this is so
    whether the version check then accepts or rejects: a version mismatch
    is reported only after every plugin has been set up.  Reading is one
    [ReadWithEnv] for YAML, and one [EvaluateFile] followed by one
    [ReadWithEnvBytes] for jsonnet. *)
Theorem Load_call_sequence (l : configLoader) (ctx : context_Context) (path version : string)
    (st st1 st2 : State) (conf conf' : Config) :
  Load_document l path st = (st1, inl conf) →
  Restrict ctx (set_dir (filepath.Dir path) conf) st1 = (st2, (conf', None)) →
  (∃ opts, calls (fst (Load l ctx path version st))
           = calls st1 ++ CallLoadDefaultConfig opts :: (CallSetup <$> pipeline conf))
  ∧ ((is_yaml (filepath.Ext path) = true ∧ calls st1 = calls st ++ [CallReadWithEnv path])
     ∨ (is_json (filepath.Ext path) = true
        ∧ ∃ jsonStr, calls st1
                     = calls st ++ [CallEvaluateFile path; CallReadWithEnvBytes jsonStr])).
Proof.
  intros Hdoc Hres. split; [|by eapply Load_document_calls].
  destruct (Restrict_success_calls ctx _ conf' st1 st2 Hres) as (opts & Hcalls).
  exists opts. rewrite Load_unfold, Hdoc, Hres.
  pose proof (ValidateVersion_calls conf' version st2) as Hver.
  destruct (ValidateVersion conf' version st2) as [st3 [err|]]; simpl in *; by rewrite Hver, Hcalls.
Qed.

(** X18. When reading a YAML document fails, [Load] returns the reader's
    error as it is, without a prefix, after that one call; nothing is
    decoded. *)
Theorem Load_yaml_read_error (l : configLoader) (ctx : context_Context) (path version : string)
    (st : State) (w : World) (b : bytes) (err : error) :
  is_yaml (filepath.Ext path) = true →
  Loader_ReadWithEnv (Loader l) path (world st) = (w, (b, Some err)) →
  Load l ctx path version st
  = (after_call st (CallReadWithEnv path) w, (l, (None, Some err))).
Proof.
  intros Hy Hread. by rewrite Load_unfold, Load_document_yaml, Hread.
Qed.

(** X19. When the jsonnet evaluation fails, [Load] returns that error
    behind ["failed to evaluate jsonnet file: "] after that one call: the
    result is not read through the template reader and nothing is
    decoded. *)
Theorem Load_evaluation_error (l : configLoader) (ctx : context_Context) (path version : string)
    (st : State) (w : World) (jsonStr : string) (err : error) :
  is_json (filepath.Ext path) = true →
  VM_EvaluateFile (VM l) path (world st) = (w, (jsonStr, Some err)) →
  Load l ctx path version st
  = (after_call st (CallEvaluateFile path) w,
     (l, (None, Some ("failed to evaluate jsonnet file: " +:+ err)))).
Proof.
  intros Hj Heval. by rewrite Load_unfold, Load_document_json, Heval.
Qed.

(** [Clean], and so [Dir], never returns the empty string. *)
Lemma Clean_nonempty (path : string) : filepath.Clean path ≠ "".
Proof.
  unfold filepath.Clean. case_bool_decide; [done|].
  destruct (filepath.IsAbs path); [done|].
  pose proof (clean_fold_written false (filepath.elements path) []
                (split_on_heads _ _) (Forall_nil_2 _)) as Hout.
  apply Forall_rev in Hout.
  destruct (rev (fold_left (filepath.clean_step false) (filepath.elements path) []))
    as [|h t]; [done|].
  rewrite bool_decide_eq_false_2 by done.
  apply Forall_cons in Hout as [[Hne _] _].
  destruct h as [|a h]; [done|]. simpl. by destruct t.
Qed.

Lemma Load_success (l : configLoader) (ctx : context_Context) (path version : string)
    (st st1 : State) (conf conf' : Config) :
  Load_document l path st = (st1, inl conf) →
  fst (snd (snd (Load l ctx path version st))) = Some conf' →
  ∃ st2, Restrict ctx (set_dir (filepath.Dir path) conf) st1 = (st2, (conf', None)).
Proof.
  intros Hdoc. rewrite Load_unfold, Hdoc.
  destruct (Restrict ctx _ st1) as [st2 [conf0 [err|]]]; [done|].
  destruct (ValidateVersion conf0 version st2) as [st3 [err|]]; [done|].
  intros [= <-]. by exists st2.
Qed.

(** X20. [Load] resolves the definition paths against the directory of the
    configuration file.  After a successful [Load], in which no plugin
    assigns [dir] or the two paths: [dir] is [filepath.Dir] of the path
    given to [Load], never empty; a non-empty relative path of the decoded
    document is [Join] of that directory and the path; an empty or absolute
    one is unchanged. *)
Theorem Load_resolves_against_config_directory
    (l : configLoader) (ctx : context_Context) (path version : string)
    (st st1 : State) (conf conf' : Config) :
  Setup_keeps dir → Setup_keeps ServiceDefinitionPath → Setup_keeps TaskDefinitionPath →
  Load_document l path st = (st1, inl conf) →
  fst (snd (snd (Load l ctx path version st))) = Some conf' →
  let resolve p :=
    if bool_decide (p ≠ "") && negb (filepath.IsAbs p)
    then filepath.Join (filepath.Dir path) p
    else p in
  dir conf' = filepath.Dir path
  ∧ dir conf' ≠ ""
  ∧ ServiceDefinitionPath conf' = resolve (ServiceDefinitionPath conf)
  ∧ TaskDefinitionPath conf' = resolve (TaskDefinitionPath conf).
Proof.
  intros Hd Hs Ht Hdoc Hok resolve.
  destruct (Load_success l ctx path version st st1 conf conf' Hdoc Hok) as (st2 & Hres).
  set (c0 := set_dir (filepath.Dir path) conf) in *.
  assert (configDir c0 = filepath.Dir path) as Hdir.
  { unfold configDir. change (dir c0) with (filepath.Dir path).
    rewrite bool_decide_eq_false_2; [done|]. apply Clean_nonempty. }
  pose proof (Restrict_keeps dir ctx c0 st1
                (conj (λ _ _, eq_refl) (conj (λ _ _, eq_refl) (λ _ _, eq_refl)))
                (λ _ _, eq_refl) Hd) as Hdir'.
  destruct (Restrict_paths ctx c0 st1 Hs Ht) as [HS HT].
  rewrite Hres in Hdir', HS, HT. cbn [fst snd] in Hdir', HS, HT.
  rewrite with_defaults_dir, Hdir in Hdir'.
  unfold resolved in HS, HT. rewrite Hdir in HS, HT.
  split; [done|]. split; [rewrite Hdir'; apply Clean_nonempty|]. by split.
Qed.

End MoreProperties.

(** * The model at work, on the stand-in collaborators *)

Section Standin.
Import standin.

(** The stand-in plugins only append to [templateFuncs]. *)
Lemma standin_Setup_keeps {A : Type} (field : Config → A) :
  (∀ v c, field (set_templateFuncs v c) = field c) → Setup_keeps field.
Proof.
  intros Hfield p ctx c w. simpl. unfold setup.
  repeat case_match; simpl; by rewrite ?Hfield.
Qed.

Lemma standin_leave_environ : collaborators_leave_environ.
Proof.
  repeat split; simpl; intros; unfold read_file, setup; by repeat case_match.
Qed.

Lemma EcsService_stores_tags : stores_tags EcsService.
Proof. by intros tags v. Qed.

(** Scenario A of the specification: no [cluster] in the document. *)
Example scenario_A :
  let files := {[ "ecspresso.yml" := document ["region: us-east-1"; "service: test"] ]} in
  let conf := fst (snd (snd (Load loader tt "ecspresso.yml" "v2.0.0" (process ∅ files)))) in
  (Cluster <$> conf, Region <$> conf, Timeout <$> conf)
  = (Some "default", Some "us-east-1", Some (Some (mkDuration (10 * time_Minute)))).
Proof. vm_compute. reflexivity. Qed.

(** Scenario C: [required_version: ">= 2.0.0"] against three versions. *)
Example scenario_C :
  let files := {[ "ecspresso.yml" := document ["required_version: >= 2.0.0"] ]} in
  let error_for version :=
    snd (snd (snd (Load loader tt "ecspresso.yml" version (process ∅ files)))) in
  (error_for "1.9.0", error_for "2.1.0", error_for "current")
  = (Some "version 1.9.0 does not satisfy constraints required_version: >= 2.0.0", None, None).
Proof. vm_compute. reflexivity. Qed.

(** Scenario D: one ignored tag key. *)
Example scenario_D :
  filterTags (Some (mkConfigIgnore ["ecspresso:ignore"]))
    [mkTag (Some "ecspresso:ignore") (Some "true"); mkTag (Some "env") (Some "prod")]
  = [mkTag (Some "env") (Some "prod")].
Proof. reflexivity. Qed.

(** The overlay at work: [A] is overridden and [B] is added while the
    operation runs, and both are back afterwards. *)
Example overlay_run :
  let extraEnv : gmap string string := {[ "A" := "1"; "B" := "2" ]} in
  let f : M (bytes * option error) :=
    λ st, (st, (default "-" (getenv_table st !! "A") +:+ default "-" (getenv_table st !! "B"),
                Some "the operation failed")) in
  let r := withExtraEnvSet (Some extraEnv) f (process {[ "A" := "0" ]} ∅) in
  snd r = ("12", Some "the operation failed")
  ∧ getenv_table (fst r) !! "A" = Some "0"
  ∧ getenv_table (fst r) !! "B" = None.
Proof. vm_compute. done. Qed.

(** ** The theorems at concrete inputs *)

(** C6 on a service with an ignored and a kept tag. *)
Lemma Apply_filters_tags_idempotent_witness :
  let i := Some (mkConfigIgnore ["ecspresso:ignore"]) in
  let v := mkEcsService "test"
             [mkTag (Some "ecspresso:ignore") (Some "true"); mkTag (Some "env") (Some "prod")] in
  GetTags (fst (Apply i v)) = [mkTag (Some "env") (Some "prod")]
  ∧ GetTags (fst (Apply i (fst (Apply i v)))) = GetTags (fst (Apply i v)).
Proof.
  intros i v.
  destruct (Apply_filters_tags_idempotent EcsService EcsService_stores_tags i v)
    as (_ & _ & Honce & _ & _ & _ & Htwice).
  split; [exact Honce | exact Htwice].
Defined.

(** C7 on the zero configuration. *)
Lemma Restrict_defaults_Cluster_Timeout_witness :
  let r := Restrict tt (new_Config "ecspresso.yml") (process ∅ ∅) in
  Cluster (fst (snd r)) = "default"
  ∧ Timeout (fst (snd r)) = Some (mkDuration (10 * time_Minute)).
Proof.
  intros r.
  assert (Restrict tt (new_Config "ecspresso.yml") (process ∅ ∅)
          = (fst r, (fst (snd r), None))) as Hrun by (vm_compute; reflexivity).
  destruct (Restrict_defaults_Cluster_Timeout (Coll := collaborators) tt _ _ _ _
              (standin_Setup_keeps Cluster (λ _ _, eq_refl))
              (standin_Setup_keeps Timeout (λ _ _, eq_refl)) Hrun)
    as (_ & Hcluster & _ & _ & Htimeout & _).
  split; [by apply Hcluster | by apply Htimeout].
Defined.

(** C5, as the code has it, on a configuration in an absolute directory. *)
Lemma Restrict_resolves_paths_witness :
  let c := mkConfig "" "" "" "" "ecs-service-def.json" "/srv/ecs-task-def.json" [] None ""
             None None None ∅ "/etc/app/ecspresso.yml" [] [] "/etc/app" None "" in
  let c' := fst (snd (Restrict tt c (process ∅ ∅))) in
  ServiceDefinitionPath c' = "/etc/app/ecs-service-def.json"
  ∧ filepath.IsAbs (ServiceDefinitionPath c') = true
  ∧ TaskDefinitionPath c' = "/srv/ecs-task-def.json".
Proof.
  intros c c'.
  destruct (Restrict_resolves_paths (Coll := collaborators) tt c (process ∅ ∅)
              (standin_Setup_keeps ServiceDefinitionPath (λ _ _, eq_refl))
              (standin_Setup_keeps TaskDefinitionPath (λ _ _, eq_refl)))
    as (Hservice & _ & _ & Htask).
  destruct (Hservice ltac:(done) eq_refl) as [Hjoin Habs].
  destruct (Htask eq_refl) as [Hsame _].
  split; [exact Hjoin | split; [exact Habs | exact Hsame]].
Defined.

(** C5, as the specification states it, fails: the configuration file is in the
    relative directory [conf], the service definition path is relative, and
    the normalised path is [conf/ecs-service-def.json], which is not
    absolute. *)
Lemma Restrict_relative_dir_counterexample :
  let c := mkConfig "" "" "" "" "ecs-service-def.json" "" [] None ""
             None None None ∅ "conf/ecspresso.yml" [] [] "conf" None "" in
  let r := Restrict tt c (process ∅ ∅) in
  snd (snd r) = None
  ∧ filepath.IsAbs (ServiceDefinitionPath c) = false
  ∧ ServiceDefinitionPath (fst (snd r)) = filepath.Join "conf" "ecs-service-def.json"
  ∧ ServiceDefinitionPath (fst (snd r)) = "conf/ecs-service-def.json"
  ∧ filepath.IsAbs (ServiceDefinitionPath (fst (snd r))) = false.
Proof. vm_compute. done. Qed.

(** The same through [Load]: the path of the loaded configuration is not
    absolute. *)
Example Load_relative_dir :
  let files := {[ "conf/ecspresso.yml" := document ["service_definition: ecs-service-def.json"] ]} in
  let conf := fst (snd (snd (Load loader tt "conf/ecspresso.yml" "v2.0.0" (process ∅ files)))) in
  ServiceDefinitionPath <$> conf = Some "conf/ecs-service-def.json".
Proof. vm_compute. reflexivity. Qed.

(** C8 on a [.toml] file. *)
Lemma Load_unsupported_extension_witness :
  Load loader tt "conf/ecspresso.toml" "v2.0.0" (process ∅ ∅)
  = (process ∅ ∅, (loader, (None, Some "unsupported config file extension: .toml"))).
Proof.
  apply (Load_unsupported_extension (Coll := collaborators) loader tt "conf/ecspresso.toml" "v2.0.0" (process ∅ ∅));
    vm_compute; discriminate.
Defined.

(** C4 on a document whose [required_version] is not a constraint. *)
Lemma Load_invalid_required_version_witness :
  let files := {[ "ecspresso.yml" := document ["required_version: latest"; "plugin: tfstate"] ]} in
  let st := process ∅ files in
  let r := Load loader tt "ecspresso.yml" "v2.0.0" st in
  snd r = (loader, (None, Some "required_version has invalid format: Malformed constraint: latest"))
  ∧ calls (fst r) = [CallReadWithEnv "ecspresso.yml"].
Proof.
  intros files st r.
  destruct (Load_invalid_required_version (Coll := collaborators) loader tt "ecspresso.yml" "v2.0.0" st
              (fst (Load_document loader "ecspresso.yml" st))
              (mkConfig (ET := types) "latest" "" "" "" "" "" [mkConfigPlugin "tfstate" None] None ""
                 None None None ∅ "ecspresso.yml" [] [] "" None "")
              "Malformed constraint: latest") as [Hload _].
  - vm_compute. reflexivity.
  - vm_compute. discriminate.
  - vm_compute. reflexivity.
  - subst r. rewrite Hload. split; vm_compute; reflexivity.
Defined.

(** C9, as the specification states it, fails: the [tfstate] plugin fails on a state
    file that does not exist; [Setup] was invoked on the two default plugins
    and then on it; the error of the pipeline, and the error [Restrict]
    returns, do not contain the plugin's name. *)
Lemma setupPlugins_error_counterexample :
  let p := mkConfigPlugin "tfstate" (Some {[ "path" := "state.json" ]}) in
  let c := mkConfig "" "" "" "" "" "" [p] None "" None None None ∅ "ecspresso.yml"
             [] [] "" None "" in
  let r := setupPlugins tt c (process ∅ ∅) in
  calls (fst r) = [CallSetup (mkConfigPlugin "ssm" None);
                   CallSetup (mkConfigPlugin "secretsmanager" None);
                   CallSetup p]
  ∧ snd (snd r) = Some "open state.json: no such file or directory"
  ∧ contains "open state.json: no such file or directory" (Name p) = false
  ∧ snd (snd (Restrict tt c (process ∅ ∅)))
    = Some "failed to setup plugins: open state.json: no such file or directory"
  ∧ contains "failed to setup plugins: open state.json: no such file or directory" (Name p)
    = false.
Proof. vm_compute. done. Qed.

(** C10 on a YAML document that declares nothing but a region, in an
    environment with one variable. *)
Lemma Load_leaves_environ_witness :
  let files := {[ "ecspresso.yml" := document ["region: us-east-1"] ]} in
  let st := mkState (mkWorld {[ "AWS_REGION" := "ap-northeast-1" ]} files) [] [] [] in
  getenv_table (fst (Load loader tt "ecspresso.yml" "v2.0.0" st))
  = {[ "AWS_REGION" := "ap-northeast-1" ]}.
Proof.
  intros files st.
  destruct (Load_leaves_environ (Coll := collaborators) loader tt "ecspresso.yml" "v2.0.0" st standin_leave_environ)
    as [Henv _].
  exact Henv.
Defined.

End Standin.

(** * More of [config.go], at concrete inputs *)

Section StandinMore.
Import standin.

(** X1 on an operation that reads a variable. *)
Lemma withExtraEnvSet_no_leak_witness :
  let f : M (bytes * option error) :=
    λ st, (st, (default "" (getenv_table st !! "A"), None)) in
  getenv_table (fst (withExtraEnvSet (Some {[ "A" := "1"; "B" := "2" ]}) f
                       (process {[ "A" := "0" ]} ∅)))
  = {[ "A" := "0" ]}.
Proof.
  intros f.
  exact (withExtraEnvSet_no_leak (ET := types) (Some {[ "A" := "1"; "B" := "2" ]}) f
           (process {[ "A" := "0" ]} ∅) (λ st, eq_refl)).
Defined.

Lemma reversed_visits {V : Type} :
  visits_each_entry_once (λ m : gmap string V, reverse (map_to_list m)).
Proof. intros m. apply reverse_Permutation. Qed.

(** X2 on the orders of [map_to_list] and their reverses. *)
Lemma withExtraEnvSet_order_irrelevant_witness :
  let f : M (bytes * option error) :=
    λ st, (st, (default "" (getenv_table st !! "A"), Some "the operation failed")) in
  withExtraEnvSet_in_order (ET := types)
    (λ m, reverse (map_to_list m)) (λ m, reverse (map_to_list m))
    (Some {[ "A" := "1"; "B" := "2" ]}) f (process {[ "A" := "0" ]} ∅)
  = withExtraEnvSet (Some {[ "A" := "1"; "B" := "2" ]}) f (process {[ "A" := "0" ]} ∅).
Proof.
  intros f.
  apply (withExtraEnvSet_order_irrelevant (ET := types)
           (λ m, reverse (map_to_list m)) map_to_list
           (λ m, reverse (map_to_list m)) map_to_list);
    first [apply reversed_visits | apply map_to_list_visits].
Defined.

(** X10 on a configuration with a constraint. *)
Lemma Restrict_versionConstraints_witness :
  let c := mkConfig (ET := types) ">= 2.0.0" "" "" "" "" "" [] None "" None None None ∅
             "ecspresso.yml" [] [] "" None "" in
  versionConstraints (fst (snd (Restrict tt c (process ∅ ∅)))) = Some (">= 2.0.0", [2; 0; 0]).
Proof.
  intros c. set (r := Restrict (Coll := collaborators) tt c (process ∅ ∅)).
  assert (Restrict (Coll := collaborators) tt c (process ∅ ∅) = (fst r, (fst (snd r), None))) as Hrun
    by (vm_compute; reflexivity).
  destruct (Restrict_versionConstraints (Coll := collaborators) tt c _ _ _
              (standin_Setup_keeps versionConstraints (λ _ _, eq_refl)) Hrun) as [_ Hparsed].
  destruct (Hparsed ltac:(done)) as (constraints & Hc & ->).
  vm_compute in Hc. by injection Hc as <-.
Defined.

(** X12 on a configuration without a region. *)
Lemma Restrict_Region_witness :
  let c := new_Config (Coll := collaborators) "ecspresso.yml" in
  let st := process {[ "AWS_REGION" := "ap-northeast-1" ]} ∅ in
  Region (fst (snd (Restrict tt c st))) = "ap-northeast-1".
Proof.
  intros c st. set (r := Restrict (Coll := collaborators) tt c st).
  assert (Restrict (Coll := collaborators) tt c st = (fst r, (fst (snd r), None))) as Hrun
    by (vm_compute; reflexivity).
  destruct (Restrict_Region (Coll := collaborators) tt c _ st _
              (standin_Setup_keeps Region (λ _ _, eq_refl)) Hrun) as (_ & Henv & _).
  by apply Henv.
Defined.

(** X11 on the zero configuration and a string that is no version. *)
Lemma ValidateVersion_without_required_version_witness :
  let c := new_Config (Coll := collaborators) "ecspresso.yml" in
  let c' := fst (snd (Restrict tt c (process ∅ ∅))) in
  ValidateVersion c' "current" (process ∅ ∅) = (process ∅ ∅, None).
Proof.
  intros c c'. set (r := Restrict (Coll := collaborators) tt c (process ∅ ∅)).
  assert (Restrict (Coll := collaborators) tt c (process ∅ ∅) = (fst r, (c', None))) as Hrun
    by (vm_compute; reflexivity).
  apply (ValidateVersion_without_required_version (Coll := collaborators) tt c c' _ _
           (standin_Setup_keeps versionConstraints (λ _ _, eq_refl)) eq_refl eq_refl Hrun).
Defined.

(** X17 on a document whose constraint rejects the version: the plugins,
    the two default ones and the declared one, have all been set up when
    the mismatch is reported. *)
Lemma Load_call_sequence_witness :
  let files := {[ "ecspresso.yml" := document ["required_version: >= 2.0.0"; "plugin: ssm"] ]} in
  let st := process ∅ files in
  let r := Load loader tt "ecspresso.yml" "1.9.0" st in
  snd (snd (snd r))
  = Some "version 1.9.0 does not satisfy constraints required_version: >= 2.0.0"
  ∧ ∃ opts, calls (fst r)
            = [CallReadWithEnv "ecspresso.yml"; CallLoadDefaultConfig opts;
               CallSetup (mkConfigPlugin "ssm" None);
               CallSetup (mkConfigPlugin "secretsmanager" None);
               CallSetup (mkConfigPlugin "ssm" None)].
Proof.
  intros files st r. split; [vm_compute; reflexivity|].
  set (doc := Load_document (Coll := collaborators) loader "ecspresso.yml" st).
  set (conf := mkConfig (ET := types) ">= 2.0.0" "" "" "" "" "" [mkConfigPlugin "ssm" None]
                 None "" None None None ∅ "ecspresso.yml" [] [] "" None "").
  set (res := Restrict (Coll := collaborators) tt (set_dir (filepath.Dir "ecspresso.yml") conf) (fst doc)).
  assert (Load_document (Coll := collaborators) loader "ecspresso.yml" st = (fst doc, inl conf)) as Hdoc
    by (vm_compute; reflexivity).
  assert (Restrict (Coll := collaborators) tt (set_dir (filepath.Dir "ecspresso.yml") conf) (fst doc)
          = (fst res, (fst (snd res), None))) as Hres by (vm_compute; reflexivity).
  destruct (Load_call_sequence (Coll := collaborators) loader tt "ecspresso.yml" "1.9.0"
              st _ _ conf _ Hdoc Hres) as [(opts & Hcalls) _].
  exists opts. exact Hcalls.
Defined.

(** X18 on a YAML file that does not exist. *)
Lemma Load_yaml_read_error_witness :
  snd (Load loader tt "missing.yml" "v2.0.0" (process ∅ ∅))
  = (loader, (None, Some "open missing.yml: no such file or directory"))
  ∧ calls (fst (Load loader tt "missing.yml" "v2.0.0" (process ∅ ∅)))
    = [CallReadWithEnv "missing.yml"].
Proof.
  assert (is_yaml (filepath.Ext "missing.yml") = true) as Hy by (vm_compute; reflexivity).
  assert (Loader_ReadWithEnv (Loader loader) "missing.yml" (world (process ∅ ∅))
          = (mkWorld ∅ ∅, ("", Some "open missing.yml: no such file or directory"))) as Hread
    by (vm_compute; reflexivity).
  rewrite (Load_yaml_read_error (Coll := collaborators) loader tt "missing.yml" "v2.0.0"
             (process ∅ ∅) (mkWorld ∅ ∅) "" "open missing.yml: no such file or directory"
             Hy Hread).
  split; reflexivity.
Defined.

(** X19 on a jsonnet file that does not exist. *)
Lemma Load_evaluation_error_witness :
  snd (Load loader tt "missing.jsonnet" "v2.0.0" (process ∅ ∅))
  = (loader, (None, Some "failed to evaluate jsonnet file: open missing.jsonnet: no such file or directory"))
  ∧ calls (fst (Load loader tt "missing.jsonnet" "v2.0.0" (process ∅ ∅)))
    = [CallEvaluateFile "missing.jsonnet"].
Proof.
  assert (is_json (filepath.Ext "missing.jsonnet") = true) as Hj by (vm_compute; reflexivity).
  assert (VM_EvaluateFile (VM loader) "missing.jsonnet" (world (process ∅ ∅))
          = (mkWorld ∅ ∅, ("", Some "open missing.jsonnet: no such file or directory")))
    as Heval by (vm_compute; reflexivity).
  rewrite (Load_evaluation_error (Coll := collaborators) loader tt "missing.jsonnet" "v2.0.0"
             (process ∅ ∅) (mkWorld ∅ ∅) ""
             "open missing.jsonnet: no such file or directory" Hj Heval).
  split; reflexivity.
Defined.

(** X20 on a configuration file in [/etc/app]. *)
Lemma Load_resolves_against_config_directory_witness :
  let files := {[ "/etc/app/ecspresso.yml"
                  := document ["service_definition: ecs-service-def.json";
                               "task_definition: /srv/ecs-task-def.json"] ]} in
  let conf' := fst (snd (snd (Load loader tt "/etc/app/ecspresso.yml" "v2.0.0" (process ∅ files)))) in
  dir <$> conf' = Some "/etc/app"
  ∧ ServiceDefinitionPath <$> conf' = Some "/etc/app/ecs-service-def.json"
  ∧ TaskDefinitionPath <$> conf' = Some "/srv/ecs-task-def.json".
Proof.
  intros files conf'.
  set (st := process ∅ files).
  set (doc := Load_document (Coll := collaborators) loader "/etc/app/ecspresso.yml" st).
  set (conf := mkConfig (ET := types) "" "" "" "" "ecs-service-def.json" "/srv/ecs-task-def.json"
                 [] None "" None None None ∅ "/etc/app/ecspresso.yml" [] [] "" None "").
  assert (Load_document (Coll := collaborators) loader "/etc/app/ecspresso.yml" st = (fst doc, inl conf)) as Hdoc
    by (vm_compute; reflexivity).
  assert (∃ loaded, conf' = Some loaded) as [loaded Hloaded]
    by (eexists; vm_compute; reflexivity).
  destruct (Load_resolves_against_config_directory (Coll := collaborators)
              loader tt "/etc/app/ecspresso.yml" "v2.0.0" st _ conf loaded
              (standin_Setup_keeps dir (λ _ _, eq_refl))
              (standin_Setup_keeps ServiceDefinitionPath (λ _ _, eq_refl))
              (standin_Setup_keeps TaskDefinitionPath (λ _ _, eq_refl))
              Hdoc Hloaded) as (Hdir & _ & Hservice & Htask).
  rewrite Hloaded. simpl. rewrite Hdir, Hservice, Htask.
  clear. vm_compute. repeat split.
Defined.

(** X15 in an environment that sets [AWS_REGION]. *)
Lemma NewDefaultConfig_then_Restrict_witness :
  let st := process {[ "AWS_REGION" := "ap-northeast-1" ]} ∅ in
  let c' := fst (snd (Restrict tt (snd (NewDefaultConfig st)) st)) in
  Region c' = "ap-northeast-1" ∧ Cluster c' = "default".
Proof.
  intros st c'. set (r := Restrict (Coll := collaborators) tt (snd (NewDefaultConfig st)) st).
  assert (Restrict (Coll := collaborators) tt (snd (NewDefaultConfig st)) st = (fst r, (c', None))) as Hrun
    by (vm_compute; reflexivity).
  destruct (NewDefaultConfig_then_Restrict (Coll := collaborators) tt c' st _
              (standin_Setup_keeps Region (λ _ _, eq_refl))
              (standin_Setup_keeps Timeout (λ _ _, eq_refl))
              (standin_Setup_keeps Cluster (λ _ _, eq_refl)) Hrun)
    as (_ & _ & Hregion & _ & _ & _ & Hcluster).
  split; [exact Hregion | exact Hcluster].
Defined.

End StandinMore.
